(** * libqi messaging core: remote object proxy and transport server

    A shallow embedding of [libqimessaging/src/remoteobject.cpp] and of
    [transport-server.cpp], together with the properties of the pending-call
    registry, of the completion slots and of the accept path.

    Conventions of the embedding:
    - an [unsigned int] is a [Z]; the conversion to the [int] key of
      [std::map<int, Promise>] is written out in [to_int];
    - a [qi::Promise] is a handle into a heap of shared promise states; a
      copy of a promise is a copy of the handle;
    - a null pointer dereference, an out-of-range [operator[]] and an
      exception that leaves the function end the run ([Crashes]);
    - everything a function does to the outside (log lines, the mutex, the
      registry, the socket, promises, signals) is appended to a trace, in
      program order. *)

From Stdlib Require Import ZArith Lia Ascii String.
From stdpp Require Import gmap strings list fin_maps pretty.

Open Scope Z_scope.

(** ** Runs that may crash *)

Inductive Crash :=
| NullDereference
| OutOfRange
| Exception (what : string).

Inductive Run (A : Type) :=
| Returns (a : A)
| Crashes (c : Crash).
Arguments Returns {A} a.
Arguments Crashes {A} c.

Global Instance run_ret : MRet Run := λ A a, Returns a.
Global Instance run_bind : MBind Run := λ A B k r,
  match r with
  | Returns a => k a
  | Crashes c => Crashes c
  end.
Global Instance run_fmap : FMap Run := λ A B f r,
  match r with
  | Returns a => Returns (f a)
  | Crashes c => Crashes c
  end.

(** ** Strings, as [std::string] has them *)

(** [s.substr(pos, n)]: throws [std::out_of_range] when [pos > s.size()],
    with the [what()] that libstdc++ formats from the position and the
    size, otherwise yields at most [n] characters from [pos]. *)
Definition substr (s : string) (pos n : Z) : Run string :=
  let size := Z.of_nat (String.length s) in
  if size <? pos then
    Crashes (Exception ("basic_string::substr: __pos (which is " +:+ pretty pos
                          +:+ ") > this->size() (which is " +:+ pretty size +:+ ")"))
  else Returns (String.substring (Z.to_nat pos) (Z.to_nat (Z.min n (size - pos))) s).

(** [sig.length() - 2] in [size_t]. *)
Definition size_t_sub (a b : Z) : Z := (a - b) mod 2 ^ 64.

(** [p->...] on a pointer that may be null. *)
Definition deref {A} (p : option A) : Run A :=
  match p with
  | Some x => Returns x
  | None => Crashes NullDereference
  end.

(** [try { body } catch (const std::exception& e) { handler(e.what()) }] *)
Definition try_catch {A} (body : Run A) (handler : string → Run A) : Run A :=
  match body with
  | Crashes (Exception what) => handler what
  | r => r
  end.

(** [v[i]] on a [std::vector]: no bounds check. *)
Definition vector_at {A} (v : list A) (i : nat) : Run A :=
  match v !! i with
  | Some x => Returns x
  | None => Crashes OutOfRange
  end.

(** Conversion of an [unsigned int] to the [int] key of the registry. *)
Definition to_int (u : Z) : Z := (u + 2 ^ 31) mod 2 ^ 32 - 2 ^ 31.

(** ** The collaborators that live in other files *)

(** Modelled from the spec: the message types of qimessaging/message.hpp,
    Call, Reply, Error and Event; [Type_None] is the type of a message
    that has not been given one. *)
Inductive MessageType := Type_None | Type_Call | Type_Reply | Type_Event | Type_Error.

Inductive LogLevel := Debug | Verbose | Warning | Error.

(** The two places that resolve a promise: the switch of
    [onMessagePending] and the send-failure branch of [metaCall]. *)
Inductive Path := Dispatch | SendFailure.

Global Instance Path_eq_dec : EqDecision Path.
Proof. solve_decision. Defined.
Global Instance LogLevel_eq_dec : EqDecision LogLevel.
Proof. solve_decision. Defined.
Global Instance MessageType_eq_dec : EqDecision MessageType.
Proof. solve_decision. Defined.

(** Buffers, the data streams, the type system and the local signal
    table of [DynamicObject] are declared in headers that are not part of
    this development; they are taken as parameters, with the constants of
    [qi::Message] and the build flavour. *)
Class Runtime := {
  Buffer : Type;
  GenericValue : Type;
  GenericFunctionParameters : Type;
  TypePtr : Type;
  SignalSubscriber : Type;
  DynamicObject : Type;
  (* build flavour *)
  NDEBUG : bool;
  (* qi::Message constants *)
  GenericObject_Main : Z;
  Service_Server : Z;
  ServerFunction_RegisterEvent : Z;
  ServerFunction_UnregisterEvent : Z;
  (* qi::Buffer, the data streams and the parameter pack *)
  buffer_empty : Buffer;
  buffer_size : Buffer → Z;
  buffer_signature : Buffer → string;
  toBuffer : GenericFunctionParameters → Buffer;
  (* [inl what]: the deserialisation throws a [std::exception] *)
  fromBuffer : string → Buffer → string + GenericFunctionParameters;
  read_string : Buffer → string * Buffer;
  write_uint : Buffer → Z → Buffer;
  (* the type system *)
  signatureSplit : string → list string;
  fromSignature : string → option TypePtr;
  deserialize : TypePtr → Buffer → GenericValue;
  (* DynamicObject, the base class that owns the local signal table *)
  signalBase : DynamicObject → Z → option string;
  DynamicObject_connect : DynamicObject → Z → SignalSubscriber → Z * DynamicObject;
  DynamicObject_disconnect : DynamicObject → Z → bool * DynamicObject;
}.

(** ** Data model *)

(** A promise is a handle; its shared state is the list of the
    [setValue]/[setError] calls it has received, oldest first, each with
    the path that made it. *)
Abbreviation Promise := nat (only parsing).

Section Model.
Context `{rt : Runtime}.

(** Modelled from the spec: the envelope of qimessaging/message.hpp,
    (request-id, type, service-id, object-id, function-id, payload);
    [msg.event()] reads the function slot. *)
Record Message := {
  msg_id : Z;
  msg_type : MessageType;
  msg_service : Z;
  msg_object : Z;
  msg_function : Z;
  msg_buffer : Buffer;
}.

Definition msg_event (m : Message) : Z := msg_function m.

Definition setBuffer (m : Message) (b : Buffer) : Message :=
  {| msg_id := msg_id m; msg_type := msg_type m; msg_service := msg_service m;
     msg_object := msg_object m; msg_function := msg_function m; msg_buffer := b |}.
Definition setType (m : Message) (t : MessageType) : Message :=
  {| msg_id := msg_id m; msg_type := t; msg_service := msg_service m;
     msg_object := msg_object m; msg_function := msg_function m; msg_buffer := msg_buffer m |}.
Definition setService (m : Message) (s : Z) : Message :=
  {| msg_id := msg_id m; msg_type := msg_type m; msg_service := s;
     msg_object := msg_object m; msg_function := msg_function m; msg_buffer := msg_buffer m |}.
Definition setObject (m : Message) (o : Z) : Message :=
  {| msg_id := msg_id m; msg_type := msg_type m; msg_service := msg_service m;
     msg_object := o; msg_function := msg_function m; msg_buffer := msg_buffer m |}.
Definition setFunction (m : Message) (f : Z) : Message :=
  {| msg_id := msg_id m; msg_type := msg_type m; msg_service := msg_service m;
     msg_object := msg_object m; msg_function := f; msg_buffer := msg_buffer m |}.

(** [qi::Message msg;]: the envelope draws its id when it is built; the id
    it draws is an input of the model. *)
Definition new_Message (mid : Z) : Message :=
  {| msg_id := mid; msg_type := Type_None; msg_service := 0;
     msg_object := 0; msg_function := 0; msg_buffer := buffer_empty |}.

(** What the proxy reads of a [MetaMethod]: [signature()] and
    [sigreturn()]. *)
Record MetaMethod := {
  signature : string;
  sigreturn : string;
}.

(** What the proxy reads of the [MetaObject]: [method(id)], a pointer
    that is null for an unknown id, and [signalMap().size()]. *)
Record MetaObject := {
  method : Z → option MetaMethod;
  signalMap_size : Z;
}.

(** The socket the proxy shares with its peers: what [isConnected()] says
    and what [send] answers belong to the socket, not to the proxy. *)
Record TransportSocket := {
  isConnected : bool;
  send : Message → bool;
}.

Inductive Settled :=
| setValue (v : GenericValue)
| setError (e : string).

Inductive LogArg :=
| LStr (s : string)
| LNum (n : Z)
| LThis
| LType (t : MessageType)
| LAddress (m : Message).

Inductive Event :=
| EvLog (level : LogLevel) (category : string) (text : list LogArg)
| EvLock
| EvUnlock
| EvInsert (key : Z) (p : Promise)
| EvErase (key : Z)
| EvSend (m : Message)
| EvSettle (p : Promise) (r : Settled)
| EvTrigger (event : Z) (args : GenericFunctionParameters).

Record RemoteObject := {
  _socket : option TransportSocket;
  _service : Z;
  _promises : gmap Z Promise;
  metaObject : MetaObject;
  base : DynamicObject;
}.

Record World := {
  self : RemoteObject;
  heap : list (list (Path * Settled));
  trace : list Event;
}.

Definition with_promises (w : World) (m : gmap Z Promise) : World :=
  {| self := {| _socket := _socket (self w); _service := _service (self w);
                _promises := m; metaObject := metaObject (self w);
                base := base (self w) |};
     heap := heap w; trace := trace w |}.

Definition with_base (w : World) (d : DynamicObject) : World :=
  {| self := {| _socket := _socket (self w); _service := _service (self w);
                _promises := _promises (self w); metaObject := metaObject (self w);
                base := d |};
     heap := heap w; trace := trace w |}.

Definition emit (w : World) (e : list Event) : World :=
  {| self := self w; heap := heap w; trace := trace w ++ e |}.

Definition qiLog (level : LogLevel) (category : string) (text : list LogArg) : Event :=
  EvLog level category text.

(** [qi::Promise<GenericValue> p;] *)
Definition newPromise (w : World) : World * Promise :=
  ({| self := self w; heap := heap w ++ [[]]; trace := trace w |}, length (heap w)).

(** [p.setValue(v)] and [p.setError(e)], made by path [who]. *)
Definition settle (who : Path) (p : Promise) (r : Settled) (w : World) : World :=
  {| self := self w;
     heap := alter (λ l, l ++ [(who, r)]) p (heap w);
     trace := trace w ++ [EvSettle p r] |}.

(** ** RemoteObject::metaCall *)

(** Lines 137-148, compiled when [NDEBUG] is not defined: the lines the
    block logs. *)
Definition metaCall_debug_check (mo : MetaObject) (m : Z) (msg : Message) : Run (list Event) :=
  if NDEBUG then Returns []
  else
    mm ← deref (method mo m);
    let sig := signature mm in
    sig ← vector_at (signatureSplit sig) 2;
    (* Remove extra tuple layer *)
    sig ← substr sig 1 (size_t_sub (Z.of_nat (String.length sig)) 2);
    if decide (sig ≠ buffer_signature (msg_buffer msg))
    then Returns [qiLog Error "remoteobject"
                    [LStr "call signature mismatch "; LStr sig; LStr " ";
                     LStr (buffer_signature (msg_buffer msg))]]
    else Returns [].

(** Lines 134-154: the promise, the message and the debug lines. *)
Definition metaCall_begin (w : World) (mid m : Z) (in_ : GenericFunctionParameters)
  : Run (World * Promise * Message) :=
  let '(w, out) := newPromise w in
  let msg := new_Message mid in
  let msg := setBuffer msg (toBuffer in_) in
  dbg ← metaCall_debug_check (metaObject (self w)) m msg;
  let w := emit w dbg in
  let msg := setType msg Type_Call in
  let msg := setService msg (_service (self w)) in
  let msg := setObject msg GenericObject_Main in
  let msg := setFunction msg m in
  let w := emit w [qiLog Debug "remoteobject"
             [LThis; LStr " metacall "; LNum (msg_service msg); LStr " ";
              LNum (msg_function msg); LStr " "; LNum (msg_id msg)]] in
  Returns (w, out, msg).

(** Lines 155-163, one critical section. *)
Definition metaCall_insert (w : World) (msg : Message) (out : Promise) : World :=
  let k := to_int (msg_id msg) in
  let w := emit w [EvLock] in
  let w :=
    if decide (is_Some (_promises (self w) !! k))
    then emit w [qiLog Error "remoteobject"
                   [LStr "There is already a pending promise with id "; LNum (msg_id msg)]]
    else w in
  emit (with_promises w (<[k := out]> (_promises (self w)))) [EvInsert k out; EvUnlock].

(** Line 166: [!_socket || !_socket->isConnected() || !_socket->send(msg)];
    the boolean is the value of the condition. *)
Definition metaCall_send (w : World) (msg : Message) : World * bool :=
  match _socket (self w) with
  | None => (w, true)
  | Some s =>
      if negb (isConnected s) then (w, true)
      else (emit w [EvSend msg], negb (send s msg))
  end.

(** Lines 167-177. *)
Definition metaCall_error_text (w : World) (m : Z) : string :=
  match method (metaObject (self w)) m with
  | Some meth => "Network error while sending data to method: '" +:+ signature meth +:+ "'"
  | None => "Network error while sending data an unknown method (id=" +:+ pretty m +:+ ")"
  end.

Definition metaCall_fail (w : World) (m : Z) (out : Promise) : World :=
  let w := emit w [qiLog Error "remoteobject" [LStr "error while sending answer"]] in
  settle SendFailure out (setError (metaCall_error_text w m)) w.

(** Lines 179-182, one critical section. *)
Definition metaCall_erase (w : World) (msg : Message) : World :=
  let k := to_int (msg_id msg) in
  emit (with_promises w (delete k (_promises (self w)))) [EvLock; EvErase k; EvUnlock].

(** [metaCall(method, in, callType)]; [callType] is not read. The future
    that comes back is the view of the promise [out]. *)
Definition metaCall (w : World) (mid m : Z) (in_ : GenericFunctionParameters)
  : Run (World * Promise) :=
  '(w, out, msg) ← metaCall_begin w mid m in_;
  let w := metaCall_insert w msg out in
  (* error will come back as a error message *)
  let '(w, failed) := metaCall_send w msg in
  let w := if failed then metaCall_erase (metaCall_fail w m out) msg else w in
  Returns (w, out).

(** ** RemoteObject::onMessagePending *)

(** Lines 42-55: the local promise, the debug line and the critical
    section that finds and erases the entry. *)
Definition onMessagePending_take (w : World) (msg : Message) : World * Promise * bool :=
  let '(w, promise) := newPromise w in
  let w := emit w [qiLog Debug "RemoteObject"
             [LThis; LStr " msg "; LType (msg_type msg); LStr " ";
              LNum (buffer_size (msg_buffer msg))]] in
  let k := to_int (msg_id msg) in
  match _promises (self w) !! k with
  | Some p =>
      (emit (with_promises w (delete k (_promises (self w)))) [EvLock; EvErase k; EvUnlock],
       p, true)
  | None => (emit w [EvLock; EvUnlock], promise, false)
  end.

(** Lines 58-83. *)
Definition onMessagePending_reply (w : World) (msg : Message) (promise : Promise)
    (found : bool) : World :=
  if negb found then
    emit w [qiLog Error "remoteobject"
              [LStr "no promise found for req id:"; LNum (msg_id msg);
               LStr "  obj: "; LNum (msg_service msg);
               LStr "  func: "; LNum (msg_function msg)]]
  else
    (* Get call signature *)
    match method (metaObject (self w)) (msg_function msg) with
    | None =>
        let w := emit w [qiLog Error "remoteobject"
                   [LStr "Result for unknown function "; LNum (msg_function msg)]] in
        settle Dispatch promise (setError "Result for unknown function") w
    | Some mm =>
        match fromSignature (sigreturn mm) with
        | None =>
            settle Dispatch promise
              (setError ("Unable to find a type for signature " +:+ sigreturn mm)) w
        | Some type => settle Dispatch promise (setValue (deserialize type (msg_buffer msg))) w
        end
    end.

(** Lines 84-99. *)
Definition onMessagePending_error (w : World) (msg : Message) (promise : Promise) : World :=
  let ds := msg_buffer msg in
  let '(sig, ds) := read_string ds in
  if decide (sig ≠ "s") then
    let w := emit w [qiLog Error "qi.RemoteObject"
               [LStr "Invalid error signature: "; LStr sig]] in
    (* houston we have an error about the error.. *)
    settle Dispatch promise (setError "unknown error") w
  else
    let '(err, ds) := read_string ds in
    let w := emit w [qiLog Verbose "remoteobject"
               [LStr "Received error message"; LAddress msg; LStr ":"; LStr err]] in
    settle Dispatch promise (setError err) w.

(** Lines 100-124. *)
Definition onMessagePending_event (w : World) (msg : Message) : Run World :=
  match signalBase (base (self w)) (msg_event msg) with
  | Some sb_signature =>
      try_catch
        (let sig := sb_signature in
         sig ← vector_at (signatureSplit sig) 2;
         sig ← substr sig 1 (size_t_sub (Z.of_nat (String.length sig)) 2);
         match fromBuffer sig (msg_buffer msg) with
         | inl what => Crashes (Exception what)
         | inr args => Returns (emit w [EvTrigger (msg_event msg) args])
         end)
        (λ what, Returns (emit w [qiLog Warning "remoteobject"
                            [LStr "Deserialize error on event: "; LStr what]]))
  | None =>
      Returns (emit w [qiLog Warning "remoteobject"
                         [LStr "Event message on unknown signal "; LNum (msg_event msg)];
                       qiLog Debug "remoteobject" [LNum (signalMap_size (metaObject (self w)))]])
  end.

(** Lines 57-128. *)
Definition onMessagePending_switch (w : World) (msg : Message) (promise : Promise)
    (found : bool) : Run World :=
  match msg_type msg with
  | Type_Reply => Returns (onMessagePending_reply w msg promise found)
  | Type_Error => Returns (onMessagePending_error w msg promise)
  | Type_Event => onMessagePending_event w msg
  | _ =>
      Returns (emit w [qiLog Error "remoteobject"
                         [LStr "Message "; LAddress msg; LStr " type not handled: ";
                          LType (msg_type msg)]])
  end.

Definition onMessagePending (w : World) (msg : Message) : Run World :=
  let '(w, promise, found) := onMessagePending_take w msg in
  onMessagePending_switch w msg promise found.

(** ** metaEmit, connect, disconnect *)

(** [_socket->send(msg)] with no test of [_socket]. *)
Definition socket_send (w : World) (msg : Message) : Run (World * bool) :=
  s ← deref (_socket (self w));
  Returns (emit w [EvSend msg], send s msg).

Definition metaEmit (w : World) (mid event : Z) (args : GenericFunctionParameters)
  : Run World :=
  (* Bounce the emit request to server *)
  let msg := new_Message mid in
  let msg := setBuffer msg (toBuffer args) in
  let msg := setType msg Type_Event in
  let msg := setService msg (_service (self w)) in
  let msg := setObject msg GenericObject_Main in
  let msg := setFunction msg event in
  '(w, ok) ← socket_send w msg;
  if negb ok
  then Returns (emit w [qiLog Error "remoteobject" [LStr "error while emiting event"]])
  else Returns w.

Definition connect (w : World) (mid event : Z) (sub : SignalSubscriber) : Run (World * Z) :=
  (* Bind the subscriber locally. *)
  let '(uid, d) := DynamicObject_connect (base (self w)) event sub in
  let w := with_base w d in
  (* Notify the Service that we are interested in its event. *)
  let msg := new_Message mid in
  let buf := buffer_empty in
  let buf := write_uint (write_uint (write_uint buf (_service (self w))) event) uid in
  let msg := setBuffer msg buf in
  let msg := setObject msg GenericObject_Main in
  let msg := setType msg Type_Event in
  let msg := setService msg Service_Server in
  let msg := setFunction msg ServerFunction_RegisterEvent in
  '(w, ok) ← socket_send w msg;
  let w := if negb ok
           then emit w [qiLog Error "remoteobject" [LStr "error while registering event"]]
           else w in
  let w := emit w [qiLog Debug "remoteobject"
             [LStr "connect() to "; LNum event; LStr " gave "; LNum uid]] in
  Returns (w, uid).

Definition disconnect (w : World) (mid linkId : Z) : Run (World * bool) :=
  let event := Z.shiftr linkId 16 in
  (* disconnect locally *)
  let '(ok, d) := DynamicObject_disconnect (base (self w)) linkId in
  let w := with_base w d in
  if negb ok then
    Returns (emit w [qiLog Warning "qi.object"
                       [LStr "Disconnection failure for "; LNum linkId]], false)
  else
    (* Tell the remote we are no longer interested. *)
    let msg := new_Message mid in
    let buf := buffer_empty in
    let buf := write_uint (write_uint (write_uint buf (_service (self w))) event) linkId in
    let msg := setBuffer msg buf in
    let msg := setType msg Type_Event in
    let msg := setService msg Service_Server in
    let msg := setObject msg GenericObject_Main in
    let msg := setFunction msg ServerFunction_UnregisterEvent in
    '(w, sent) ← socket_send w msg;
    let w := if negb sent
             then emit w [qiLog Error "remoteobject" [LStr "error while disconnecting signal"]]
             else w in
    Returns (w, true).

End Model.

(** ** The transport server (transport-server.cpp) *)

Module Server.

(** libc and libevent, as the server uses them. *)
Class Platform := {
  EventBase : Type;
  Listener : Type;
  Delegate : Type;
  AF_INET : Z;
  htons : Z → Z;
  inet_addr : string → Z;
  (* a null listener when the socket cannot be created, bound or listened on *)
  evconnlistener_new_bind : EventBase → Z → Z → (Z * Z * Z) → Z → option Listener;
  evconnlistener_get_base : Listener → EventBase;
}.

(** The constants of <arpa/inet.h> and <event2/listener.h>. *)
Definition INADDR_NONE : Z := 0xffffffff.
Definition LEV_OPT_CLOSE_ON_FREE : Z := 2.
Definition LEV_OPT_CLOSE_ON_EXEC : Z := 4.
Definition LEV_OPT_REUSEABLE : Z := 8.
(** [sizeof(struct sockaddr_in)] *)
Definition sizeof_sockaddr_in : Z := 16.

Section Server.
Context `{pf : Platform}.

(** Modelled from the spec: what [start] reads of a [qi::Url],
    [scheme://host:port]. *)
Record Url := {
  host : string;
  port : Z;
}.

(** [new qi::TransportSocket(fd, base)] *)
Record TransportSocket := {
  fd : Z;
  event_base : EventBase;
}.

Inductive Event :=
| EvLog (level : LogLevel) (category : string) (text : string)
| EvBind (base : EventBase) (sin_family sin_port s_addr : Z) (bound : bool)
| EvNewConnection (d : Delegate).

(** [connection] is a [std::queue], [tsi] the delegate pointer. *)
Record TransportServerPrivate := {
  connection : list TransportSocket;
  tsi : option Delegate;
  trace : list Event;
}.

(** Modelled from the spec: the constructor of [TransportServerPrivate]
    is declared in transport_server_p.hpp; the server is constructed
    empty, with no delegate installed. *)
Definition TransportServer_new : TransportServerPrivate :=
  {| connection := []; tsi := None; trace := [] |}.

Definition record (p : TransportServerPrivate) (e : list Event) : TransportServerPrivate :=
  {| connection := connection p; tsi := tsi p; trace := trace p ++ e |}.

(** [TransportServerPrivate::accept], reached from [accept_cb]. *)
Definition accept (p : TransportServerPrivate) (fd : Z) (listener : Listener)
  : Run TransportServerPrivate :=
  let base := evconnlistener_get_base listener in
  let p := {| connection := connection p ++ [{| fd := fd; event_base := base |}];
              tsi := tsi p; trace := trace p |} in
  d ← deref (tsi p);
  Returns (record p [EvNewConnection d]).

(** [TransportServerPrivate::start]; the listener is kept in a local
    variable that is not read. *)
Definition start (p : TransportServerPrivate) (base : EventBase) (url : Url)
  : TransportServerPrivate * bool :=
  let socklen := sizeof_sockaddr_in in
  let sin_port := htons (port url mod 2 ^ 16) in
  let sin_family := AF_INET in
  let s_addr := inet_addr (host url) in
  if decide (s_addr = INADDR_NONE) then
    (record p [EvLog Error "qimessaging.transportserver" "Provided IP is not valid"], false)
  else
    let listener :=
      evconnlistener_new_bind base
        (Z.lor (Z.lor LEV_OPT_CLOSE_ON_FREE LEV_OPT_CLOSE_ON_EXEC) LEV_OPT_REUSEABLE)
        (-1) (sin_family, sin_port, s_addr) socklen in
    (record p [EvBind base sin_family sin_port s_addr (bool_decide (is_Some listener))], true).

(** [TransportServer::nextPendingConnection]: a null pointer when the
    queue is empty. *)
Definition nextPendingConnection (p : TransportServerPrivate)
  : TransportServerPrivate * option TransportSocket :=
  match connection p with
  | front :: rest => ({| connection := rest; tsi := tsi p; trace := trace p |}, Some front)
  | [] => (p, None)
  end.

(** [TransportServer::setCallbacks] *)
Definition setCallbacks (p : TransportServerPrivate) (delegate : option Delegate)
  : TransportServerPrivate :=
  {| connection := connection p; tsi := delegate; trace := trace p |}.

End Server.
End Server.

(** ** Sequences of calls on one proxy *)

Section Sequential.
Context `{rt : Runtime}.

(** The socket is shared: its state changes behind the proxy's back. *)
Definition socket_becomes (w : World) (s : TransportSocket) : World :=
  match _socket (self w) with
  | Some _ =>
      {| self := {| _socket := Some s; _service := _service (self w);
                    _promises := _promises (self w); metaObject := metaObject (self w);
                    base := base (self w) |};
         heap := heap w; trace := trace w |}
  | None => w
  end.

Inductive Op :=
| OpMetaCall (mid m : Z) (in_ : GenericFunctionParameters)
| OpMessagePending (msg : Message)
| OpMetaEmit (mid event : Z) (args : GenericFunctionParameters)
| OpConnect (mid event : Z) (sub : SignalSubscriber)
| OpDisconnect (mid linkId : Z)
| OpSocket (s : TransportSocket).

Definition exec_op (w : World) (o : Op) : Run World :=
  match o with
  | OpMetaCall mid m in_ => fst <$> metaCall w mid m in_
  | OpMessagePending msg => onMessagePending w msg
  | OpMetaEmit mid event args => metaEmit w mid event args
  | OpConnect mid event sub => fst <$> connect w mid event sub
  | OpDisconnect mid linkId => fst <$> disconnect w mid linkId
  | OpSocket s => Returns (socket_becomes w s)
  end.

Fixpoint exec (w : World) (ops : list Op) : Run World :=
  match ops with
  | [] => Returns w
  | o :: ops => w ← exec_op w o; exec w ops
  end.

(** What a promise has received so far. *)
Definition settled (w : World) (p : Promise) : list (Path * Settled) :=
  default [] (heap w !! p).

Definition settled_by (who : Path) (w : World) (p : Promise) : nat :=
  length (filter (λ x, x.1 = who) (settled w p)).

(** Between two calls: every handle of the registry is allocated and
    unresolved, no two ids share a promise, and no promise has been
    resolved twice. *)
Definition quiescent (w : World) : Prop :=
  (∀ (k : Z) (p : Promise), _promises (self w) !! k = Some p → heap w !! p = Some [])
  ∧ (∀ (k k' : Z) (p : Promise),
       _promises (self w) !! k = Some p → _promises (self w) !! k' = Some p → k = k')
  ∧ (∀ (p : Promise), (length (settled w p) ≤ 1)%nat).

(** A promise that the registry does not hold. *)
Definition unreachable (w : World) (p : Promise) : Prop :=
  (p < length (heap w))%nat ∧ (∀ (k : Z), _promises (self w) !! k ≠ Some p).

(** The proxy as its constructor leaves it: the socket, the service, the
    meta-object, and an empty registry. *)
Definition proxy (service : Z) (mo : MetaObject) (d : DynamicObject)
    (s : option TransportSocket) : World :=
  {| self := {| _socket := s; _service := service; _promises := ∅;
                metaObject := mo; base := d |};
     heap := []; trace := [] |}.

End Sequential.

(** ** Threads: the caller's thread and the thread of the event loop

    The steps are the pieces of [metaCall] and [onMessagePending] between
    which another thread can run: a critical section is one step. *)

Section Interleaving.
Context `{rt : Runtime}.

Inductive Thread :=
| Call_begin (mid m : Z) (in_ : GenericFunctionParameters)
| Call_insert (msg : Message) (m : Z) (out : Promise)
| Call_send (msg : Message) (m : Z) (out : Promise)
| Call_fail (msg : Message) (m : Z) (out : Promise)
| Call_erase (msg : Message) (out : Promise)
| Call_return (out : Promise)
| Dispatch_take (msg : Message)
| Dispatch_switch (msg : Message) (promise : Promise) (found : bool)
| Dispatch_return.

Definition thread_step (w : World) (t : Thread) : Run (World * Thread) :=
  match t with
  | Call_begin mid m in_ =>
      '(w, out, msg) ← metaCall_begin w mid m in_;
      Returns (w, Call_insert msg m out)
  | Call_insert msg m out => Returns (metaCall_insert w msg out, Call_send msg m out)
  | Call_send msg m out =>
      let '(w, failed) := metaCall_send w msg in
      Returns (w, if failed then Call_fail msg m out else Call_return out)
  | Call_fail msg m out => Returns (metaCall_fail w m out, Call_erase msg out)
  | Call_erase msg out => Returns (metaCall_erase w msg, Call_return out)
  | Call_return out => Returns (w, Call_return out)
  | Dispatch_take msg =>
      let '(w, promise, found) := onMessagePending_take w msg in
      Returns (w, Dispatch_switch msg promise found)
  | Dispatch_switch msg promise found =>
      w ← onMessagePending_switch w msg promise found;
      Returns (w, Dispatch_return)
  | Dispatch_return => Returns (w, Dispatch_return)
  end.

Inductive Action :=
| Advance (i : nat)
| Socket (s : TransportSocket).

Definition step (c : World * list Thread) (a : Action) : Run (World * list Thread) :=
  match a with
  | Advance i =>
      match c.2 !! i with
      | Some t => '(w, t) ← thread_step c.1 t; Returns (w, <[i := t]> c.2)
      | None => Returns c
      end
  | Socket s => Returns (socket_becomes c.1 s, c.2)
  end.

Fixpoint interleave (c : World * list Thread) (schedule : list Action)
  : Run (World * list Thread) :=
  match schedule with
  | [] => Returns c
  | a :: schedule => c ← step c a; interleave c schedule
  end.

(** The promise a thread can still resolve from the dispatch path: the
    promise a call is about to put in the registry, and the promise a
    dispatch has taken. *)
Definition dispatch_claim (p : Promise) (t : Thread) : nat :=
  match t with
  | Call_insert _ _ out => if decide (out = p) then 1 else 0
  | Dispatch_switch _ promise _ => if decide (promise = p) then 1 else 0
  | _ => 0
  end.

(** The promise a call can still resolve on its send-failure path. *)
Definition failure_claim (p : Promise) (t : Thread) : nat :=
  match t with
  | Call_insert _ _ out | Call_send _ _ out | Call_fail _ _ out =>
      if decide (out = p) then 1 else 0
  | _ => 0
  end.

(** The number of registry entries that hold [p]. *)
Definition registered (p : Promise) (m : gmap Z Promise) : nat :=
  length (filter (λ kv, kv.2 = p) (map_to_list m)).

Definition thread_allocated (n : nat) (t : Thread) : Prop :=
  match t with
  | Call_insert _ _ out | Call_send _ _ out | Call_fail _ _ out
  | Call_erase _ out | Call_return out => (out < n)%nat
  | Dispatch_switch _ promise _ => (promise < n)%nat
  | _ => True
  end.

Definition allocated (c : World * list Thread) : Prop :=
  (∀ (k : Z) (p : Promise), _promises (self c.1) !! k = Some p → (p < length (heap c.1))%nat)
  ∧ Forall (thread_allocated (length (heap c.1))) c.2.

(** Every promise has one claim at most on each path, counting what it
    has already received. *)
Definition one_claim (c : World * list Thread) : Prop :=
  ∀ (p : Promise),
    (settled_by Dispatch c.1 p + registered p (_promises (self c.1))
       + sum_list_with (dispatch_claim p) c.2 ≤ 1)%nat
    ∧ (settled_by SendFailure c.1 p + sum_list_with (failure_claim p) c.2 ≤ 1)%nat.

Definition starting (t : Thread) : Prop :=
  match t with
  | Call_begin _ _ _ | Dispatch_take _ => True
  | _ => False
  end.

End Interleaving.

(** ** The constructor, setTransportSocket and close *)

Section Lifecycle.
Context `{rt : Runtime}.

(** What the proxy asks of a socket about its dispatcher; the link is the
    token [messagePendingConnect] returns. *)
Inductive SocketCall :=
| messagePendingConnect (socket : TransportSocket) (service link : Z)
| messagePendingDisconnect (socket : TransportSocket) (service link : Z).

(** The proxy with the member [_linkMessageDispatcher], and the calls it
    has made on sockets about its dispatcher, oldest first. *)
Record Attached := {
  object : World;
  _linkMessageDispatcher : Z;
  dispatchers : list SocketCall;
}.

Definition with_socket (w : World) (s : option TransportSocket) : World :=
  {| self := {| _socket := s; _service := _service (self w);
                _promises := _promises (self w); metaObject := metaObject (self w);
                base := base (self w) |};
     heap := heap w; trace := trace w |}.

(** Lines 26-32; [link] is what [messagePendingConnect] returns. *)
Definition setTransportSocket (a : Attached) (socket : option TransportSocket) (link : Z)
  : Attached :=
  let service := _service (self (object a)) in
  let calls :=
    match _socket (self (object a)) with
    | Some old => [messagePendingDisconnect old service (_linkMessageDispatcher a)]
    | None => []
    end in
  let w := with_socket (object a) socket in
  match socket with
  | Some s =>
      {| object := w; _linkMessageDispatcher := link;
         dispatchers := dispatchers a ++ calls ++ [messagePendingConnect s service link] |}
  | None =>
      {| object := w; _linkMessageDispatcher := _linkMessageDispatcher a;
         dispatchers := dispatchers a ++ calls |}
  end.

(** Lines 15-22: the members are initialised, [_socket] with the socket
    and the link with 0, then the body calls [setTransportSocket]. *)
Definition RemoteObject_new (service : Z) (mo : MetaObject) (d : DynamicObject)
    (socket : option TransportSocket) (link : Z) : Attached :=
  setTransportSocket
    {| object := proxy service mo d socket; _linkMessageDispatcher := 0; dispatchers := [] |}
    socket link.

(** Lines 259-262; the destructor calls it too. *)
Definition close (a : Attached) : Attached :=
  match _socket (self (object a)) with
  | Some s =>
      {| object := object a; _linkMessageDispatcher := _linkMessageDispatcher a;
         dispatchers := dispatchers a
           ++ [messagePendingDisconnect s (_service (self (object a)))
                 (_linkMessageDispatcher a)] |}
  | None => a
  end.

Inductive LifecycleOp :=
| OpSetTransportSocket (socket : option TransportSocket) (link : Z)
| OpClose.

Definition lifecycle_op (a : Attached) (o : LifecycleOp) : Attached :=
  match o with
  | OpSetTransportSocket socket link => setTransportSocket a socket link
  | OpClose => close a
  end.

Definition lifecycle (a : Attached) (ops : list LifecycleOp) : Attached :=
  foldl lifecycle_op a ops.

(** The dispatcher attached last, if any. *)
Fixpoint last_connect (calls : list SocketCall) : option (TransportSocket * Z * Z) :=
  match calls with
  | [] => None
  | c :: calls =>
      match last_connect calls with
      | Some x => Some x
      | None =>
          match c with
          | messagePendingConnect s service link => Some (s, service, link)
          | messagePendingDisconnect _ _ _ => None
          end
      end
  end.

(** Every disconnect of [calls] names the dispatcher attached last
    before it, [seen] being the calls made earlier. *)
Fixpoint detaches_last_attached (seen calls : list SocketCall) : Prop :=
  match calls with
  | [] => True
  | messagePendingConnect s service link :: rest =>
      detaches_last_attached (seen ++ [messagePendingConnect s service link]) rest
  | messagePendingDisconnect s service link :: rest =>
      last_connect seen = Some (s, service, link)
      ∧ detaches_last_attached (seen ++ [messagePendingDisconnect s service link]) rest
  end.

(** As long as the proxy holds a socket, the dispatcher attached last is
    the one it remembers. *)
Definition remembers_dispatcher (a : Attached) : Prop :=
  ∀ s, _socket (self (object a)) = Some s →
       last_connect (dispatchers a)
       = Some (s, _service (self (object a)), _linkMessageDispatcher a).

End Lifecycle.

(** ** Accepting and draining connections *)

Section ServerSequences.
Context `{pf : Server.Platform}.

(** The accept callback, once for each descriptor, in order. *)
Fixpoint accept_all (p : Server.TransportServerPrivate) (fds : list Z)
    (listener : Server.Listener) : Run Server.TransportServerPrivate :=
  match fds with
  | [] => Returns p
  | fd :: fds => p ← Server.accept p fd listener; accept_all p fds listener
  end.

(** [nextPendingConnection], [n] times. *)
Fixpoint drain (n : nat) (p : Server.TransportServerPrivate)
  : Server.TransportServerPrivate * list (option Server.TransportSocket) :=
  match n with
  | O => (p, [])
  | S n =>
      let '(p, front) := Server.nextPendingConnection p in
      let '(p, rest) := drain n p in
      (p, front :: rest)
  end.

End ServerSequences.

(** ** GenericValue::convert (genericvalue.cpp) *)

Module Conversion.

(** The types, as [convert] uses them: [info()], [clone], [toValue] and
    [fromValue] of a [Type], and [typeOf<GenericValue>()->info()]. *)
Class Types := {
  TypeInfo : Type;
  TypeInfo_eq_dec :: EqDecision TypeInfo;
  Type_ : Type;
  Storage : Type;
  DynamicValue : Type;
  info : Type_ → TypeInfo;
  GenericValue_info : TypeInfo;
  Type_clone : Type_ → Storage → Storage;
  toValue : Type_ → Storage → DynamicValue;
  fromValue : Type_ → DynamicValue → Storage;
}.

Section Conversion.
Context `{ty : Types}.

(** A [GenericValue] is a type pointer and a [void*]: [Void] has a null
    type, the value of [Plain] points to storage of its type, the value
    of [Meta] points to a [GenericValue] that it owns. *)
Inductive GenericValue :=
| Void
| Plain (type : Type_) (value : Storage)
| Meta (type : Type_) (value : GenericValue).

(** What a conversion comes to: a value, a null type pointer
    dereferenced, or storage read at a type that is not its own. *)
Inductive Converted :=
| Value (g : GenericValue)
| NullType
| ForeignStorage.

Definition is_metavalue (t : Type_) : bool := bool_decide (info t = GenericValue_info).

(** [GenericValue::convert]; [clone] is [GenericValue::clone], declared
    in the header. *)
Fixpoint convert (clone : GenericValue → GenericValue) (g : GenericValue)
    (targetType : Type_) : Converted :=
  if is_metavalue targetType then
    (* Target is metavalue: special case *)
    Value (Meta targetType (clone g))
  else
    match g with
    | Void => NullType
    | Meta type metaval =>
        if is_metavalue type then
          (* Source is metavalue: special case *)
          convert clone metaval targetType
        else ForeignStorage
    | Plain type value =>
        if is_metavalue type then ForeignStorage
        else if decide (info targetType = info type) then
          (* Same type, just clone *)
          Value (Plain type (Type_clone type value))
        else
          (* Different type, go through value *)
          Value (Plain targetType (fromValue targetType (toValue type value)))
    end.

Definition type_of (g : GenericValue) : option Type_ :=
  match g with
  | Void => None
  | Plain type _ | Meta type _ => Some type
  end.

(** The storage of the value matches its type, at every level. *)
Fixpoint well_typed (g : GenericValue) : Prop :=
  match g with
  | Void => False
  | Plain type _ => is_metavalue type = false
  | Meta type metaval => is_metavalue type = true ∧ well_typed metaval
  end.

(** The value under the metavalue layers. *)
Fixpoint innermost (g : GenericValue) : GenericValue :=
  match g with
  | Meta _ metaval => innermost metaval
  | _ => g
  end.

End Conversion.
End Conversion.

(** ** Vocabulary of the properties *)

Section Vocabulary.
Context `{rt : Runtime}.

Definition is_log (e : Event) : Prop :=
  match e with
  | EvLog _ _ _ => True
  | _ => False
  end.

Definition is_error_log (e : Event) : Prop :=
  match e with
  | EvLog Error _ _ => True
  | _ => False
  end.

Global Instance is_error_log_dec e : Decision (is_error_log e).
Proof. destruct e as [[] ? ?| | | | | | |]; simpl; apply _. Defined.

(** The message [metaCall] builds for method [m]. *)
Definition call_message (w : World) (mid m : Z) (in_ : GenericFunctionParameters) : Message :=
  {| msg_id := mid; msg_type := Type_Call; msg_service := _service (self w);
     msg_object := GenericObject_Main; msg_function := m; msg_buffer := toBuffer in_ |}.

(** The condition of line 166: the socket is absent, disconnected, or
    refuses the message. *)
Definition transport_unavailable (w : World) (msg : Message) : bool :=
  match _socket (self w) with
  | None => true
  | Some s => negb (isConnected s) || negb (send s msg)
  end.

(** What line 166 hands to the socket. *)
Definition handed_to_socket (w : World) (msg : Message) : list Event :=
  match _socket (self w) with
  | Some s => if isConnected s then [EvSend msg] else []
  | None => []
  end.

(** What the send-failure branch (lines 167-182) does, in order. *)
Definition send_failure_events (w : World) (mid m : Z) (out : Promise) : list Event :=
  [qiLog Error "remoteobject" [LStr "error while sending answer"];
   EvSettle out (setError (metaCall_error_text w m));
   EvLock; EvErase (to_int mid); EvUnlock].

(** The line logged when the id is already in the registry. *)
Definition duplicate_id_log (mid : Z) : Event :=
  qiLog Error "remoteobject"
    [LStr "There is already a pending promise with id "; LNum mid].

(** What the switch of [onMessagePending] hands to the promise it
    holds, if anything. *)
Definition reply_outcome (w : World) (msg : Message) : Settled :=
  match method (metaObject (self w)) (msg_function msg) with
  | None => setError "Result for unknown function"
  | Some mm =>
      match fromSignature (sigreturn mm) with
      | None => setError ("Unable to find a type for signature " +:+ sigreturn mm)
      | Some type => setValue (deserialize type (msg_buffer msg))
      end
  end.

Definition error_outcome (msg : Message) : Settled :=
  let '(sig, ds) := read_string (msg_buffer msg) in
  if decide (sig = "s") then setError (read_string ds).1 else setError "unknown error".

Definition dispatch_outcome (w : World) (msg : Message) (found : bool) : option Settled :=
  match msg_type msg with
  | Type_Reply => if found then Some (reply_outcome w msg) else None
  | Type_Error => Some (error_outcome msg)
  | _ => None
  end.

(** The debug block of [metaCall] lets the call through. *)
Definition debug_check_passes (w : World) (mid m : Z) (in_ : GenericFunctionParameters) : Prop :=
  ∃ dbg, metaCall_debug_check (metaObject (self w)) m (call_message w mid m in_) = Returns dbg.

(** Inbound messages, handed to the proxy one after the other. *)
Definition deliver (w : World) (inbound : list Message) : Run World :=
  exec w (OpMessagePending <$> inbound).

(** [msg] is a Reply or an Error for the call [mid]. *)
Definition answers (mid : Z) (msg : Message) : bool :=
  bool_decide (msg_type msg = Type_Reply ∨ msg_type msg = Type_Error)
  && bool_decide (to_int (msg_id msg) = to_int mid).

(** [msg] carries the id of the call [mid], whatever its type. *)
Definition carries (mid : Z) (msg : Message) : bool :=
  bool_decide (to_int (msg_id msg) = to_int mid).

(** A call is in flight until its send fails or its Reply or Error
    comes in. *)
Definition in_flight (failed : bool) (mid : Z) (inbound : list Message) : bool :=
  negb failed && forallb (λ msg, negb (answers mid msg)) inbound.

(** [o] is the dispatch of a message that carries the id of the call
    [mid], or a call that draws this id. *)
Definition uses_id (mid : Z) (o : Op) : bool :=
  match o with
  | OpMessagePending msg => carries mid msg
  | OpMetaCall mid' _ _ => bool_decide (to_int mid' = to_int mid)
  | _ => false
  end.

End Vocabulary.

(** ** A small runtime to evaluate the model on

    Buffers are lists of strings, the signature first; a serialised [s]
    payload is [["s"; text]]. Method and signal signatures are written
    [name::(args)]. *)

Module Fixture.

Fixpoint split_name (s : string) : string * string :=
  match s with
  | EmptyString => (EmptyString, EmptyString)
  | String a rest =>
      match a, rest with
      | ":"%char, String ":"%char params => (EmptyString, params)
      | _, _ => let '(name, params) := split_name rest in (String a name, params)
      end
  end.

Record Signals := {
  signals : gmap Z string;
  links : list Z;
}.

Definition runtime (ndebug : bool) : Runtime :=
  {| Buffer := list string;
     GenericValue := list string;
     GenericFunctionParameters := list string;
     TypePtr := string;
     SignalSubscriber := unit;
     DynamicObject := Signals;
     NDEBUG := ndebug;
     GenericObject_Main := 1;
     Service_Server := 0;
     ServerFunction_RegisterEvent := 0;
     ServerFunction_UnregisterEvent := 1;
     buffer_empty := [];
     buffer_size := λ b, Z.of_nat (length b);
     buffer_signature := λ b, default EmptyString (head b);
     toBuffer := λ args, args;
     fromBuffer := λ sig b,
       if decide (default EmptyString (head b) = sig) then inr b
       else inl "signature mismatch"%string;
     read_string := λ b, (default EmptyString (head b), tail b);
     write_uint := λ b n, b ++ [pretty n];
     signatureSplit := λ s, let '(name, params) := split_name s in [EmptyString; name; params];
     fromSignature := λ s, if decide (s = EmptyString) then None else Some s;
     deserialize := λ _ b, tail b;
     signalBase := λ d event, signals d !! event;
     DynamicObject_connect := λ d event _,
       let uid := Z.lor (Z.shiftl event 16) (Z.of_nat (length (links d))) in
       (uid, {| signals := signals d; links := links d ++ [uid] |});
     DynamicObject_disconnect := λ d linkId,
       (bool_decide (linkId ∈ links d),
        {| signals := signals d; links := filter (λ l, l ≠ linkId) (links d) |}) |}.

Definition release : Runtime := runtime true.
Definition debug : Runtime := runtime false.

(** Service 7 with the method 3, [ping::(s)] returning [i]. *)
Definition meta `{Runtime} : MetaObject :=
  {| method := λ m, if m =? 3
                    then Some {| signature := "ping::(s)"; sigreturn := "i" |}
                    else None;
     signalMap_size := 0 |}.

Definition no_signals : Signals := {| signals := ∅; links := [] |}.

Definition connected `{Runtime} : TransportSocket :=
  {| isConnected := true; send := λ _, true |}.
Definition disconnected `{Runtime} : TransportSocket :=
  {| isConnected := false; send := λ _, true |}.
Definition refusing `{Runtime} : TransportSocket :=
  {| isConnected := true; send := λ _, false |}.

Definition reply `{Runtime} (mid : Z) (payload : Buffer) : Message :=
  {| msg_id := mid; msg_type := Type_Reply; msg_service := 7; msg_object := 1;
     msg_function := 3; msg_buffer := payload |}.
Definition error `{Runtime} (mid : Z) (payload : Buffer) : Message :=
  {| msg_id := mid; msg_type := Type_Error; msg_service := 7; msg_object := 1;
     msg_function := 3; msg_buffer := payload |}.
Definition event `{Runtime} (mid : Z) (payload : Buffer) : Message :=
  {| msg_id := mid; msg_type := Type_Event; msg_service := 7; msg_object := 1;
     msg_function := 9; msg_buffer := payload |}.

(** The value a run returns, [otherwise] when it crashes. *)
Definition returned {A} (r : Run A) (otherwise : A) : A :=
  match r with
  | Returns a => a
  | Crashes _ => otherwise
  end.

Definition returns {A} (r : Run A) : bool :=
  match r with
  | Returns _ => true
  | Crashes _ => false
  end.

Section Release.
Local Existing Instance release.

Definition hello : GenericFunctionParameters := ["s"; "hi"]%string.
Definition boom : Buffer := ["s"; "boom"]%string.

(** The proxy of service 7 on a socket that sends, on one that refuses,
    and with no socket. *)
Definition idle : World := proxy 7 meta no_signals (Some connected).
Definition idle_refusing : World := proxy 7 meta no_signals (Some refusing).

(** The call 1 of method 3, sent. *)
Definition first_call : World * nat := returned (metaCall idle 1 3 hello) (idle, 0%nat).
Definition called : World := returned (exec idle [OpMetaCall 1 3 hello]) idle.

(** A second call that draws the id 1 again. *)
Definition second_call : World * nat := returned (metaCall called 1 3 hello) (called, 0%nat).

(** An Event that carries the id 1 comes in after the first call. *)
Definition event_1 : Message := event 1 [].
Definition first_call_then_event : World :=
  returned (deliver first_call.1 [event_1]) idle.
Definition called_then_event : World :=
  returned (onMessagePending called event_1) idle.

(** The call 1 and the dispatch of a Reply that carries the id 1. *)
Definition racing_threads : list Thread :=
  [Call_begin 1 3 hello; Dispatch_take (reply 1 ["i"; "42"]%string)].

(** The call inserts, the dispatch takes and resolves, the send fails. *)
Definition racing_schedule : list Action :=
  [Advance 0; Advance 0; Advance 1; Advance 1; Advance 0; Advance 0; Advance 0]%nat.

Definition raced : World * list Thread :=
  returned (interleave (idle_refusing, racing_threads) racing_schedule) (idle_refusing, []).

(** The call 1, sent, then the call 2. *)
Definition called_twice : World :=
  returned (exec first_call.1 [OpMetaCall 2 3 hello]) idle.


(** The payload of a Reply to [ping], the value 42 at the type [i]. *)
Definition answer : Buffer := ["i"; "42"]%string.

(** The call 2 after the call 1. *)
Definition next_call : World * nat :=
  returned (metaCall first_call.1 2 3 hello) (idle, 0%nat).

(** The socket starts to refuse after the call 1, and a call draws the
    id 1 again. *)
Definition refused_history : list Op := [OpMetaCall 1 3 hello; OpSocket refusing].
Definition called_then_refused : World := returned (exec idle refused_history) idle.
Definition failed_duplicate : World * nat :=
  returned (metaCall called_then_refused 1 3 hello) (idle, 0%nat).

(** The signal 9, [tick::(s)], with one local subscriber, under the
    link 9 << 16. *)
Definition subscribed : Signals :=
  {| signals := {[ 9 := "tick::(s)"%string ]}; links := [589824] |}.
Definition listening : World := proxy 7 meta subscribed (Some connected).

End Release.

(** The same proxy in a build without [NDEBUG], with no socket. *)
Definition debug_no_socket : @World debug := @proxy debug 7 (@meta debug) no_signals None.

Definition platform (binds : bool) : Server.Platform :=
  {| Server.EventBase := unit;
     Server.Listener := unit;
     Server.Delegate := nat;
     Server.AF_INET := 2;
     Server.htons := λ p, Z.lor (Z.shiftl (Z.land p 0xff) 8) (Z.shiftr p 8);
     Server.inet_addr := λ h,
       if decide (h = "127.0.0.1"%string) then 0x0100007f
       else if decide (h = "0.0.0.0"%string) then 0
       else Server.INADDR_NONE;
     Server.evconnlistener_new_bind := λ _ _ _ _ _, if binds then Some () else None;
     Server.evconnlistener_get_base := λ _, () |}.

(** A platform on which every bind is refused. *)
Definition bind_refused : Server.Platform := platform false.

Definition localhost : Server.Url :=
  {| Server.host := "127.0.0.1"; Server.port := 9559 |}.

(** A server on which the delegate 1 is installed. *)
Definition serving : @Server.TransportServerPrivate bind_refused :=
  @Server.setCallbacks bind_refused (@Server.TransportServer_new bind_refused) (Some 1%nat).

(** Types named by a string, numbers for storage; a conversion to
    [bool] normalises the number. *)
Definition types : Conversion.Types :=
  {| Conversion.TypeInfo := string;
     Conversion.Type_ := string;
     Conversion.Storage := Z;
     Conversion.DynamicValue := Z;
     Conversion.info := λ t, t;
     Conversion.GenericValue_info := "GenericValue";
     Conversion.Type_clone := λ _ v, v;
     Conversion.toValue := λ _ v, v;
     Conversion.fromValue := λ t v,
       if decide (t = "bool"%string) then (if decide (v = 0) then 0 else 1) else v |}.

(** The [int] 7, and the same in a metavalue. *)
Definition seven : @Conversion.GenericValue types := @Conversion.Plain types "int"%string 7.
Definition boxed_seven : @Conversion.GenericValue types :=
  @Conversion.Meta types "GenericValue"%string seven.

End Fixture.

(** * Properties of the remote object proxy *)

Section Proofs.
Context `{rt : Runtime}.

Local Ltac run_inv :=
  repeat match goal with
  | H : Returns _ = Returns _ |- _ => injection H as H; subst
  | H : (_, _) = (_, _) |- _ => injection H as H; subst
  | H : Crashes _ = Returns _ |- _ => discriminate H
  | H : Returns _ = Crashes _ |- _ => discriminate H
  | H : mbind _ ?r = Returns _ |- _ =>
      let E := fresh "E" in destruct r eqn:E; simpl in H; [|discriminate H]
  | H : fmap _ ?r = Returns _ |- _ =>
      let E := fresh "E" in destruct r eqn:E; simpl in H; [|discriminate H]
  end.

(** *** The pieces of metaCall *)

Lemma debug_check_logs mo m msg dbg :
  metaCall_debug_check mo m msg = Returns dbg → Forall is_log dbg.
Proof.
  unfold metaCall_debug_check. destruct NDEBUG.
  - intros [= <-]. constructor.
  - intros Hrun. run_inv. case_decide; run_inv; repeat constructor.
Qed.

Lemma debug_check_buffer mo m msg msg' :
  msg_buffer msg = msg_buffer msg' →
  metaCall_debug_check mo m msg = metaCall_debug_check mo m msg'.
Proof. unfold metaCall_debug_check. by intros ->. Qed.


Lemma metaCall_begin_eq w mid m in_ :
  metaCall_begin w mid m in_ =
    dbg ← metaCall_debug_check (metaObject (self w)) m (call_message w mid m in_);
    Returns
      ({| self := self w; heap := heap w ++ [[]];
          trace := (trace w ++ dbg) ++
            [qiLog Debug "remoteobject"
               [LThis; LStr " metacall "; LNum (_service (self w)); LStr " ";
                LNum m; LStr " "; LNum mid]] |},
       length (heap w), call_message w mid m in_).
Proof.
  unfold metaCall_begin. simpl.
  rewrite (debug_check_buffer _ _ _ (call_message w mid m in_)) by done.
  by destruct (metaCall_debug_check _ _ _).
Qed.

Lemma metaCall_send_eq w msg :
  metaCall_send w msg =
    ({| self := self w; heap := heap w; trace := trace w ++ handed_to_socket w msg |},
     transport_unavailable w msg).
Proof.
  unfold metaCall_send, handed_to_socket, transport_unavailable.
  destruct w as [s h t]; simpl.
  destruct (_socket s) as [sock|]; [destruct (isConnected sock)|]; simpl;
    by rewrite ?app_nil_r.
Qed.

Lemma metaCall_insert_eq w msg out :
  metaCall_insert w msg out =
    {| self := {| _socket := _socket (self w); _service := _service (self w);
                  _promises := <[to_int (msg_id msg) := out]> (_promises (self w));
                  metaObject := metaObject (self w); base := base (self w) |};
       heap := heap w;
       trace := trace w ++ [EvLock]
         ++ (if decide (is_Some (_promises (self w) !! to_int (msg_id msg)))
             then [duplicate_id_log (msg_id msg)] else [])
         ++ [EvInsert (to_int (msg_id msg)) out; EvUnlock] |}.
Proof.
  unfold metaCall_insert, with_promises, emit. simpl.
  case_decide; simpl; by rewrite <- ?app_assoc.
Qed.

Lemma transport_unavailable_socket w w' msg :
  _socket (self w') = _socket (self w) →
  transport_unavailable w' msg = transport_unavailable w msg.
Proof. unfold transport_unavailable. by intros ->. Qed.

Lemma handed_to_socket_socket w w' msg :
  _socket (self w') = _socket (self w) →
  handed_to_socket w' msg = handed_to_socket w msg.
Proof. unfold handed_to_socket. by intros ->. Qed.

Lemma error_text_meta w w' m :
  metaObject (self w') = metaObject (self w) →
  metaCall_error_text w' m = metaCall_error_text w m.
Proof. unfold metaCall_error_text. by intros ->. Qed.

(** What a call that returns has done. *)
Lemma metaCall_spec w mid m in_ w' fut :
  metaCall w mid m in_ = Returns (w', fut) →
  let k := to_int mid in
  let msg := call_message w mid m in_ in
  let failed := transport_unavailable w msg in
  fut = length (heap w)
  ∧ _socket (self w') = _socket (self w)
  ∧ _service (self w') = _service (self w)
  ∧ metaObject (self w') = metaObject (self w)
  ∧ base (self w') = base (self w)
  ∧ _promises (self w') =
      (if failed then delete k (_promises (self w)) else <[k := fut]> (_promises (self w)))
  ∧ heap w' =
      heap w ++ [if failed then [(SendFailure, setError (metaCall_error_text w m))] else []]
  ∧ ∃ dbg,
      Forall is_log dbg
      ∧ trace w' =
          trace w ++ dbg ++ [EvLock]
            ++ (if decide (is_Some (_promises (self w) !! k)) then [duplicate_id_log mid] else [])
            ++ [EvInsert k fut; EvUnlock]
            ++ handed_to_socket w msg
            ++ (if failed then send_failure_events w mid m fut else []).
Proof.
  unfold metaCall. rewrite metaCall_begin_eq. intros Hrun.
  destruct (metaCall_debug_check _ _ _) as [dbg|] eqn:Hdbg; [|done].
  apply debug_check_logs in Hdbg.
  cbn [mbind run_bind] in Hrun.
  rewrite metaCall_send_eq, metaCall_insert_eq in Hrun.
  rewrite (transport_unavailable_socket w) in Hrun by done.
  rewrite (handed_to_socket_socket w) in Hrun by done.
  set (failed := transport_unavailable w (call_message w mid m in_)) in *.
  simpl in Hrun. injection Hrun as <- <-.
  unfold metaCall_erase, metaCall_fail, settle, with_promises, emit.
  rewrite (error_text_meta w) by done.
  assert (Hlogs : Forall is_log (dbg ++ [qiLog Debug "remoteobject"
            [LThis; LStr " metacall "; LNum (_service (self w)); LStr " ";
             LNum m; LStr " "; LNum mid]])).
  { apply Forall_app; split; [done|by repeat constructor]. }
  destruct failed; simpl.
  - rewrite delete_insert_eq, alter_app_r_alt, Nat.sub_diag by lia. simpl.
    repeat split; try done.
    eexists; split; [exact Hlogs|].
    rewrite <- !app_assoc. simpl. by rewrite <- !app_assoc.
  - repeat split; try done.
    eexists; split; [exact Hlogs|].
    rewrite <- !app_assoc. simpl. by rewrite <- !app_assoc, app_nil_r.
Qed.

Lemma metaCall_returns w mid m in_ :
  debug_check_passes w mid m in_ → ∃ w' fut, metaCall w mid m in_ = Returns (w', fut).
Proof.
  intros [dbg Hdbg]. unfold metaCall. rewrite metaCall_begin_eq, Hdbg.
  cbn [mbind run_bind]. rewrite metaCall_send_eq. by eexists _, _.
Qed.

Lemma metaCall_crashes w mid m in_ c :
  metaCall_debug_check (metaObject (self w)) m (call_message w mid m in_) = Crashes c →
  metaCall w mid m in_ = Crashes c.
Proof. intros Hdbg. unfold metaCall. by rewrite metaCall_begin_eq, Hdbg. Qed.


(** *** The pieces of onMessagePending *)

Lemma onMessagePending_take_eq w msg :
  let k := to_int (msg_id msg) in
  let line := qiLog Debug "RemoteObject"
                [LThis; LStr " msg "; LType (msg_type msg); LStr " ";
                 LNum (buffer_size (msg_buffer msg))] in
  onMessagePending_take w msg =
    ({| self := {| _socket := _socket (self w); _service := _service (self w);
                   _promises := delete k (_promises (self w));
                   metaObject := metaObject (self w); base := base (self w) |};
        heap := heap w ++ [[]];
        trace := trace w ++ [line; EvLock]
                   ++ match _promises (self w) !! k with
                      | Some _ => [EvErase k]
                      | None => []
                      end ++ [EvUnlock] |},
     default (length (heap w)) (_promises (self w) !! k),
     bool_decide (is_Some (_promises (self w) !! k))).
Proof.
  unfold onMessagePending_take, with_promises, emit. simpl.
  destruct w as [[sock srv reg mo d] h t]; simpl.
  destruct (reg !! to_int (msg_id msg)) as [p|] eqn:Hreg; simpl.
  - by rewrite <- !app_assoc.
  - rewrite delete_id by done. by rewrite <- !app_assoc.
Qed.

Lemma onMessagePending_event_inv w msg w' :
  onMessagePending_event w msg = Returns w' →
  self w' = self w ∧ heap w' = heap w ∧ ∃ ev, trace w' = trace w ++ ev.
Proof.
  unfold onMessagePending_event, try_catch. intros Hrun.
  repeat (first [progress run_inv | case_match]; simplify_eq/=; try done); eauto.
Qed.

Lemma onMessagePending_switch_inv w msg promise found w' :
  onMessagePending_switch w msg promise found = Returns w' →
  self w' = self w
  ∧ heap w' =
      match dispatch_outcome w msg found with
      | Some r => alter (λ l, l ++ [(Dispatch, r)]) promise (heap w)
      | None => heap w
      end
  ∧ ∃ ev, trace w' = trace w ++ ev.
Proof.
  unfold onMessagePending_switch, dispatch_outcome. intros Hrun.
  destruct (msg_type msg); try (injection Hrun as <-; simpl; by eauto).
  - injection Hrun as <-. unfold onMessagePending_reply, reply_outcome.
    destruct found; simpl; [|by eauto].
    repeat case_match; simpl; rewrite <- ?app_assoc; eauto.
  - by apply onMessagePending_event_inv in Hrun.
  - injection Hrun as <-. unfold onMessagePending_error, error_outcome.
    destruct (read_string (msg_buffer msg)) as [sig ds].
    destruct (read_string ds) as [err ds'] eqn:Herr.
    repeat case_decide; simpl; try done; rewrite <- ?app_assoc; eauto.
Qed.

(** The switch returns for every message that is not an Event. *)
Lemma onMessagePending_switch_returns w msg promise found :
  msg_type msg ≠ Type_Event →
  ∃ w', onMessagePending_switch w msg promise found = Returns w'.
Proof. unfold onMessagePending_switch. destruct (msg_type msg); by eauto. Qed.

(** What a dispatch that returns has done. *)
Lemma onMessagePending_spec w msg w' :
  onMessagePending w msg = Returns w' →
  let k := to_int (msg_id msg) in
  let found := bool_decide (is_Some (_promises (self w) !! k)) in
  let promise := default (length (heap w)) (_promises (self w) !! k) in
  _socket (self w') = _socket (self w)
  ∧ _service (self w') = _service (self w)
  ∧ metaObject (self w') = metaObject (self w)
  ∧ base (self w') = base (self w)
  ∧ _promises (self w') = delete k (_promises (self w))
  ∧ heap w' =
      match dispatch_outcome w msg found with
      | Some r => alter (λ l, l ++ [(Dispatch, r)]) promise (heap w ++ [[]])
      | None => heap w ++ [[]]
      end
  ∧ ∃ ev,
      trace w' =
        trace w ++ [qiLog Debug "RemoteObject"
                      [LThis; LStr " msg "; LType (msg_type msg); LStr " ";
                       LNum (buffer_size (msg_buffer msg))];
                    EvLock]
          ++ match _promises (self w) !! k with
             | Some _ => [EvErase k]
             | None => []
             end ++ [EvUnlock] ++ ev.
Proof.
  unfold onMessagePending. rewrite onMessagePending_take_eq. intros Hrun.
  apply onMessagePending_switch_inv in Hrun as (Hself & Hheap & ev & Htrace).
  simpl in *. rewrite Hself, Hheap. repeat split; try done.
  exists ev. rewrite Htrace. simpl. rewrite <- !app_assoc. simpl.
  by destruct (_promises (self w) !! to_int (msg_id msg)).
Qed.

Lemma onMessagePending_returns w msg :
  msg_type msg ≠ Type_Event → ∃ w', onMessagePending w msg = Returns w'.
Proof.
  intros Hty. unfold onMessagePending. rewrite onMessagePending_take_eq.
  by apply onMessagePending_switch_returns.
Qed.

(** *** metaEmit, connect and disconnect leave the registry alone *)

Lemma socket_send_inv w msg w' ok :
  socket_send w msg = Returns (w', ok) →
  self w' = self w ∧ heap w' = heap w ∧ trace w' = trace w ++ [EvSend msg]
  ∧ ∃ s, _socket (self w) = Some s ∧ ok = send s msg.
Proof.
  unfold socket_send. destruct (_socket (self w)) as [s|]; [|done].
  intros [= <- <-]. simpl. repeat split; eauto.
Qed.

Lemma metaEmit_inv w mid event args w' :
  metaEmit w mid event args = Returns w' → self w' = self w ∧ heap w' = heap w.
Proof.
  unfold metaEmit. intros Hrun. run_inv. destruct a as [w1 ok].
  apply socket_send_inv in E as (Hself & Hheap & _).
  destruct (negb ok); injection Hrun as <-; by simpl.
Qed.

Lemma connect_inv w mid event sub w' uid :
  connect w mid event sub = Returns (w', uid) →
  _promises (self w') = _promises (self w) ∧ heap w' = heap w.
Proof.
  unfold connect. destruct (DynamicObject_connect _ _ _) as [uid' d].
  intros Hrun. run_inv. destruct a as [w1 ok].
  apply socket_send_inv in E as (Hself & Hheap & _).
  injection Hrun as <- <-. destruct (negb ok); simpl; by rewrite Hself, Hheap.
Qed.

Lemma disconnect_inv w mid linkId w' ok :
  disconnect w mid linkId = Returns (w', ok) →
  _promises (self w') = _promises (self w) ∧ heap w' = heap w.
Proof.
  unfold disconnect. destruct (DynamicObject_disconnect _ _) as [ok' d].
  destruct (negb ok'); [by intros [= <- <-]|].
  intros Hrun. run_inv. destruct a as [w1 sent].
  apply socket_send_inv in E as (Hself & Hheap & _).
  injection Hrun as <- <-. destruct (negb sent); simpl; by rewrite Hself, Hheap.
Qed.

Lemma socket_becomes_inv w s :
  _promises (self (socket_becomes w s)) = _promises (self w)
  ∧ heap (socket_becomes w s) = heap w.
Proof. unfold socket_becomes. by destruct (_socket (self w)). Qed.

(** *** Between calls *)

Lemma quiescent_allocated w k p :
  quiescent w → _promises (self w) !! k = Some p → (p < length (heap w))%nat.
Proof. intros (Hreg & _) Hk. eapply lookup_lt_Some, Hreg, Hk. Qed.

Lemma quiescent_proxy service mo d s : quiescent (proxy service mo d s).
Proof.
  split; [|split]; simpl.
  - intros k p. by rewrite lookup_empty.
  - intros k k' p. by rewrite lookup_empty.
  - intros p. unfold settled. simpl. lia.
Qed.

Lemma quiescent_metaCall w mid m in_ w' fut :
  quiescent w → metaCall w mid m in_ = Returns (w', fut) → quiescent w'.
Proof.
  intros (Hreg & Hinj & Hlen) Hrun.
  apply metaCall_spec in Hrun as (-> & _ & _ & _ & _ & Hreg' & Hheap' & _).
  assert (Hold : ∀ k p, _promises (self w) !! k = Some p →
                        (heap w ++ [if transport_unavailable w (call_message w mid m in_)
                                    then [(SendFailure, setError (metaCall_error_text w m))]
                                    else []]) !! p = Some []).
  { intros k p Hk. pose proof (Hreg _ _ Hk) as Hp.
    rewrite lookup_app_l by (by eapply lookup_lt_Some). done. }
  unfold quiescent, settled. rewrite Hreg', Hheap'. split; [|split].
  - intros k p Hk. destruct (transport_unavailable _ _).
    + apply lookup_delete_Some in Hk as [_ Hk]. eauto.
    + apply lookup_insert_Some in Hk as [[_ <-]|[_ Hk]]; [|by eauto].
      rewrite lookup_app_r, Nat.sub_diag by lia. done.
  - intros k k' p Hk Hk'. destruct (transport_unavailable _ _).
    + apply lookup_delete_Some in Hk as [_ Hk].
      apply lookup_delete_Some in Hk' as [_ Hk']. eauto.
    + apply lookup_insert_Some in Hk as [[<- <-]|[Hne Hk]];
        apply lookup_insert_Some in Hk' as [[<- Hp]|[Hne' Hk']]; subst; eauto.
      * apply Hreg, lookup_lt_Some in Hk'. lia.
      * apply Hreg, lookup_lt_Some in Hk. lia.
  - intros p. destruct (decide (p < length (heap w))%nat) as [Hp|Hp].
    + rewrite lookup_app_l by done. apply Hlen.
    + destruct (decide (p = length (heap w))) as [->|Hne].
      * rewrite lookup_app_r, Nat.sub_diag by lia. simpl.
        destruct (transport_unavailable _ _); simpl; lia.
      * rewrite lookup_ge_None_2 by (rewrite length_app; simpl; lia). simpl. lia.
Qed.

Lemma quiescent_onMessagePending w msg w' :
  quiescent w → onMessagePending w msg = Returns w' → quiescent w'.
Proof.
  intros (Hreg & Hinj & Hlen) Hrun.
  apply onMessagePending_spec in Hrun as (_ & _ & _ & _ & Hreg' & Hheap' & _).
  set (k := to_int (msg_id msg)) in *.
  set (promise := default (length (heap w)) (_promises (self w) !! k)) in *.
  assert (Hpromise : (heap w ++ [[]]) !! promise = Some []).
  { unfold promise. destruct (_promises (self w) !! k) as [q|] eqn:Hk; simpl.
    - pose proof (Hreg _ _ Hk). rewrite lookup_app_l by (by eapply lookup_lt_Some). done.
    - rewrite lookup_app_r, Nat.sub_diag by lia. done. }
  assert (Hother : ∀ k' p, k' ≠ k → _promises (self w) !! k' = Some p →
                           p ≠ promise ∧ (heap w ++ [[]]) !! p = Some []).
  { intros k' p Hne Hk'. pose proof (Hreg _ _ Hk') as Hp. split.
    - unfold promise. destruct (_promises (self w) !! k) as [q|] eqn:Hk; simpl.
      + intros ->. by eapply Hne, Hinj.
      + apply lookup_lt_Some in Hp. lia.
    - rewrite lookup_app_l by (by eapply lookup_lt_Some). done. }
  unfold quiescent, settled. rewrite Hreg', Hheap'. split; [|split].
  - intros k' p Hk'. apply lookup_delete_Some in Hk' as [Hne Hk'].
    destruct (Hother _ _ (not_eq_sym Hne) Hk') as [Hp Hcell].
    destruct (dispatch_outcome _ _ _); [|done].
    by rewrite list_lookup_alter_ne.
  - intros k1 k2 p Hk1 Hk2.
    apply lookup_delete_Some in Hk1 as [_ Hk1].
    apply lookup_delete_Some in Hk2 as [_ Hk2]. eauto.
  - intros p.
    assert (Hbase : (length (default [] ((heap w ++ [[]]) !! p)) ≤ 1)%nat).
    { destruct (decide (p < length (heap w))%nat) as [Hp|Hp].
      - rewrite lookup_app_l by done. apply Hlen.
      - destruct ((heap w ++ [[]]) !! p) as [l|] eqn:Hl; simpl; [|lia].
        assert (p = length (heap w)) as ->.
        { apply lookup_lt_Some in Hl. rewrite length_app in Hl. simpl in Hl. lia. }
        rewrite lookup_app_r, Nat.sub_diag in Hl by lia. injection Hl as <-. simpl. lia. }
    destruct (dispatch_outcome _ _ _); [|done].
    destruct (decide (promise = p)) as [<-|Hne].
    + rewrite list_lookup_alter_eq, Hpromise. simpl. lia.
    + by rewrite list_lookup_alter_ne.
Qed.

Lemma quiescent_exec_op w o w' :
  quiescent w → exec_op w o = Returns w' → quiescent w'.
Proof.
  intros Hq Hrun. destruct o; simpl in Hrun.
  - run_inv. destruct a as [w1 fut]. by eapply quiescent_metaCall.
  - by eapply quiescent_onMessagePending.
  - apply metaEmit_inv in Hrun as [Hself Hheap].
    unfold quiescent, settled in *. by rewrite Hself, Hheap.
  - run_inv. destruct a as [w1 uid]. apply connect_inv in E as [Hreg Hheap].
    unfold quiescent, settled in *. simpl. by rewrite Hreg, Hheap.
  - run_inv. destruct a as [w1 ok]. apply disconnect_inv in E as [Hreg Hheap].
    unfold quiescent, settled in *. simpl. by rewrite Hreg, Hheap.
  - injection Hrun as <-. destruct (socket_becomes_inv w s) as [Hreg Hheap].
    unfold quiescent, settled in *. by rewrite Hreg, Hheap.
Qed.

Lemma quiescent_exec ops : ∀ w w',
  quiescent w → exec w ops = Returns w' → quiescent w'.
Proof.
  induction ops as [|o ops IH]; intros w w' Hq Hrun; simpl in Hrun.
  - by injection Hrun as <-.
  - run_inv. eapply IH; [|done]. by eapply quiescent_exec_op.
Qed.

(** *** A promise the registry has lost stays as it is *)

Lemma unreachable_metaCall w mid m in_ w' fut p :
  unreachable w p → metaCall w mid m in_ = Returns (w', fut) →
  unreachable w' p ∧ settled w' p = settled w p.
Proof.
  intros [Hp Hno] Hrun.
  apply metaCall_spec in Hrun as (-> & _ & _ & _ & _ & Hreg' & Hheap' & _).
  unfold unreachable, settled. rewrite Hreg', Hheap'. split; [split|].
  - rewrite length_app. lia.
  - intros k' Hk'. destruct (transport_unavailable _ _).
    + apply lookup_delete_Some in Hk' as [_ Hk']. by eapply Hno.
    + apply lookup_insert_Some in Hk' as [[_ Heq]|[_ Hk']]; [lia|by eapply Hno].
  - by rewrite lookup_app_l.
Qed.

Lemma unreachable_onMessagePending w msg w' p :
  unreachable w p → onMessagePending w msg = Returns w' →
  unreachable w' p ∧ settled w' p = settled w p.
Proof.
  intros [Hp Hno] Hrun.
  apply onMessagePending_spec in Hrun as (_ & _ & _ & _ & Hreg' & Hheap' & _).
  set (k := to_int (msg_id msg)) in *.
  set (promise := default (length (heap w)) (_promises (self w) !! k)) in *.
  assert (Hne : promise ≠ p).
  { unfold promise. destruct (_promises (self w) !! k) as [q|] eqn:Hk; simpl.
    - intros ->. by eapply Hno.
    - lia. }
  unfold unreachable, settled. rewrite Hreg', Hheap'. split; [split|].
  - destruct (dispatch_outcome _ _ _); rewrite ?length_alter, length_app; lia.
  - intros k' Hk'. apply lookup_delete_Some in Hk' as [_ Hk']. by eapply Hno.
  - destruct (dispatch_outcome _ _ _);
      rewrite ?list_lookup_alter_ne by done; by rewrite lookup_app_l.
Qed.

Lemma unreachable_exec_op w o w' p :
  unreachable w p → exec_op w o = Returns w' →
  unreachable w' p ∧ settled w' p = settled w p.
Proof.
  intros Hu Hrun. destruct o; simpl in Hrun.
  - run_inv. destruct a as [w1 fut]. by eapply unreachable_metaCall.
  - by eapply unreachable_onMessagePending.
  - apply metaEmit_inv in Hrun as [Hself Hheap].
    unfold unreachable, settled in *. by rewrite Hself, Hheap.
  - run_inv. destruct a as [w1 uid]. apply connect_inv in E as [Hreg Hheap].
    unfold unreachable, settled in *. simpl. by rewrite Hreg, Hheap.
  - run_inv. destruct a as [w1 ok]. apply disconnect_inv in E as [Hreg Hheap].
    unfold unreachable, settled in *. simpl. by rewrite Hreg, Hheap.
  - injection Hrun as <-. destruct (socket_becomes_inv w s) as [Hreg Hheap].
    unfold unreachable, settled in *. by rewrite Hreg, Hheap.
Qed.

Lemma unreachable_exec ops : ∀ w w' p,
  unreachable w p → exec w ops = Returns w' →
  unreachable w' p ∧ settled w' p = settled w p.
Proof.
  induction ops as [|o ops IH]; intros w w' p Hu Hrun; simpl in Hrun.
  - by injection Hrun as <-.
  - run_inv. destruct (unreachable_exec_op _ _ _ _ Hu E) as [Hu' <-]. by eapply IH.
Qed.

(** *** Counting: registry entries, claims of threads, resolutions *)

Lemma registered_insert_fresh p (m : gmap Z Promise) k q :
  m !! k = None →
  registered p (<[k := q]> m) = ((if decide (q = p) then 1 else 0) + registered p m)%nat.
Proof.
  intros Hk. unfold registered.
  rewrite (Permutation_length
             (filter_Permutation _ _ _ (map_to_list_insert m k q Hk))).
  rewrite filter_cons. simpl. by case_decide.
Qed.

Lemma registered_delete p (m : gmap Z Promise) k q :
  m !! k = Some q →
  registered p m = ((if decide (q = p) then 1 else 0) + registered p (delete k m))%nat.
Proof.
  intros Hk. rewrite <- (insert_delete_id m k q Hk) at 1.
  apply registered_insert_fresh, lookup_delete_eq.
Qed.

Lemma registered_delete_le p (m : gmap Z Promise) k :
  (registered p (delete k m) ≤ registered p m)%nat.
Proof.
  destruct (m !! k) as [q|] eqn:Hk.
  - rewrite (registered_delete p m k q Hk). lia.
  - by rewrite delete_id.
Qed.

Lemma registered_insert p (m : gmap Z Promise) k q :
  registered p (<[k := q]> m)
  = ((if decide (q = p) then 1 else 0) + registered p (delete k m))%nat.
Proof.
  rewrite <- insert_delete_eq. apply registered_insert_fresh, lookup_delete_eq.
Qed.

Lemma registered_none p (m : gmap Z Promise) :
  (∀ k, m !! k ≠ Some p) → registered p m = 0%nat.
Proof.
  intros Hno. unfold registered.
  induction m as [|k q m Hk _ IH] using map_first_key_ind.
  - by rewrite map_to_list_empty.
  - fold (registered p (<[k:=q]> m)). rewrite registered_insert_fresh by done.
    unfold registered. rewrite IH.
    + case_decide; [|done]. subst. exfalso. eapply Hno, lookup_insert_eq.
    + intros k' Hk'. apply (Hno k'). rewrite lookup_insert_ne; [done|].
      intros ->. congruence.
Qed.

Lemma sum_list_with_insert {A} (f : A → nat) (l : list A) i x y :
  l !! i = Some x →
  (sum_list_with f (<[i := y]> l) + f x = sum_list_with f l + f y)%nat.
Proof.
  revert i. induction l as [|a l IH]; intros [|i] Hi; simplify_eq/=; [lia|].
  specialize (IH _ Hi). lia.
Qed.

Lemma claims_none n ts p :
  Forall (thread_allocated n) ts → (n ≤ p)%nat →
  sum_list_with (dispatch_claim p) ts = 0%nat
  ∧ sum_list_with (failure_claim p) ts = 0%nat.
Proof.
  intros Hall Hp. induction Hall as [|t ts Ht _ [IHd IHf]]; [done|].
  simpl. rewrite IHd, IHf.
  destruct t; simpl in *; repeat case_decide; subst; split; lia.
Qed.

Lemma settled_by_app who w w' p :
  heap w' = heap w ++ [[]] → settled_by who w' p = settled_by who w p.
Proof.
  unfold settled_by, settled. intros ->.
  destruct (decide (p < length (heap w))%nat) as [Hp|Hp].
  - by rewrite lookup_app_l.
  - rewrite (lookup_ge_None_2 (heap w)) by lia.
    destruct (decide (p = length (heap w))) as [->|Hne].
    + by rewrite lookup_app_r, Nat.sub_diag by lia.
    + by rewrite lookup_ge_None_2 by (rewrite length_app; simpl; lia).
Qed.

Lemma settled_by_alter who w w' q who' r p :
  heap w' = alter (λ l, l ++ [(who', r)]) q (heap w) →
  (settled_by who w' p
   ≤ settled_by who w p + (if decide (q = p ∧ who' = who) then 1 else 0))%nat
  ∧ (who' ≠ who → settled_by who w' p = settled_by who w p).
Proof.
  unfold settled_by, settled. intros ->.
  destruct (decide (q = p)) as [->|Hne].
  - rewrite list_lookup_alter_eq.
    destruct (heap w !! p) as [l|]; simpl.
    + rewrite filter_app, length_app, filter_cons, filter_nil. simpl.
      destruct (decide (who' = who)) as [Hwho|Hwho].
      * rewrite decide_True by done. simpl. split; [lia|done].
      * rewrite decide_False by tauto. simpl. split; [lia|intros _; lia].
    + split; [lia|done].
  - rewrite list_lookup_alter_ne by done. split; [lia|done].
Qed.

Lemma settled_by_fresh who w p :
  (length (heap w) ≤ p)%nat → settled_by who w p = 0%nat.
Proof. intros Hp. unfold settled_by, settled. by rewrite lookup_ge_None_2. Qed.

Lemma settled_split w p :
  length (settled w p) = (settled_by Dispatch w p + settled_by SendFailure w p)%nat.
Proof.
  unfold settled_by. induction (settled w p) as [|[[] r] l IH]; [done|..];
    rewrite !filter_cons; simpl; repeat case_decide; simpl; try done; lia.
Qed.

(** *** One step of a thread *)

Lemma thread_step_effect w t w' t' :
  thread_step w t = Returns (w', t') →
  let reg := _promises (self w) in
  let reg' := _promises (self w') in
  match t with
  | Call_begin mid m in_ =>
      (∃ msg, t' = Call_insert msg m (length (heap w)))
      ∧ reg' = reg ∧ heap w' = heap w ++ [[]]
  | Call_insert msg m out =>
      t' = Call_send msg m out
      ∧ reg' = <[to_int (msg_id msg) := out]> reg ∧ heap w' = heap w
  | Call_send msg m out =>
      (t' = Call_fail msg m out ∨ t' = Call_return out)
      ∧ reg' = reg ∧ heap w' = heap w
  | Call_fail msg m out =>
      t' = Call_erase msg out ∧ reg' = reg
      ∧ ∃ r, heap w' = alter (λ l, l ++ [(SendFailure, r)]) out (heap w)
  | Call_erase msg out =>
      t' = Call_return out
      ∧ reg' = delete (to_int (msg_id msg)) reg ∧ heap w' = heap w
  | Dispatch_take msg =>
      t' = Dispatch_switch msg
             (default (length (heap w)) (reg !! to_int (msg_id msg)))
             (bool_decide (is_Some (reg !! to_int (msg_id msg))))
      ∧ reg' = delete (to_int (msg_id msg)) reg ∧ heap w' = heap w ++ [[]]
  | Dispatch_switch msg promise found =>
      t' = Dispatch_return ∧ reg' = reg
      ∧ (heap w' = heap w
         ∨ ∃ r, heap w' = alter (λ l, l ++ [(Dispatch, r)]) promise (heap w))
  | Call_return _ | Dispatch_return => t' = t ∧ w' = w
  end.
Proof.
  destruct t; simpl; intros Hrun.
  - rewrite metaCall_begin_eq in Hrun. run_inv. simpl. eauto.
  - rewrite metaCall_insert_eq in Hrun. by run_inv.
  - rewrite metaCall_send_eq in Hrun. run_inv. simpl.
    destruct (transport_unavailable _ _); eauto.
  - run_inv. simpl. eauto.
  - by run_inv.
  - by run_inv.
  - rewrite onMessagePending_take_eq in Hrun. by run_inv.
  - run_inv. apply onMessagePending_switch_inv in E as (-> & -> & _).
    split; [done|split; [done|]]. destruct (dispatch_outcome _ _ _); eauto.
  - by run_inv.
Qed.

(** *** The invariant of the interleavings *)

Lemma starting_allocated n ts : Forall starting ts → Forall (thread_allocated n) ts.
Proof. intros Hs. eapply Forall_impl; [exact Hs|]. by intros []. Qed.

Lemma starting_claims p ts :
  Forall starting ts →
  sum_list_with (dispatch_claim p) ts = 0%nat
  ∧ sum_list_with (failure_claim p) ts = 0%nat.
Proof.
  induction 1 as [|t ts Ht _ [IHd IHf]]; [done|].
  simpl. rewrite IHd, IHf. by destruct t.
Qed.

Lemma thread_allocated_mono n n' t :
  (n ≤ n')%nat → thread_allocated n t → thread_allocated n' t.
Proof. intros Hn. destruct t; simpl; lia. Qed.

(** A promise that is not allocated yet has no claim anywhere. *)
Lemma fresh_promise w ts p :
  allocated (w, ts) → (length (heap w) ≤ p)%nat →
  settled_by Dispatch w p = 0%nat ∧ settled_by SendFailure w p = 0%nat
  ∧ registered p (_promises (self w)) = 0%nat
  ∧ sum_list_with (dispatch_claim p) ts = 0%nat
  ∧ sum_list_with (failure_claim p) ts = 0%nat.
Proof.
  intros [Hreg Hts] Hp. simpl in *.
  destruct (claims_none _ _ _ Hts Hp) as [Hd Hf].
  rewrite !settled_by_fresh by done. repeat split; try done.
  apply registered_none. intros k Hk. apply Hreg in Hk. lia.
Qed.

Lemma allocated_advance w ts i t w' t' :
  allocated (w, ts) → ts !! i = Some t → thread_step w t = Returns (w', t') →
  allocated (w', <[i := t']> ts).
Proof.
  intros [Hreg Hts] Hi Hstep. simpl in *.
  pose proof (Forall_lookup_1 _ _ _ _ Hts Hi) as Ht.
  apply thread_step_effect in Hstep. simpl in Hstep.
  assert (Hgoal : (length (heap w) ≤ length (heap w'))%nat
                  ∧ (∀ k p, _promises (self w') !! k = Some p →
                            (p < length (heap w'))%nat)
                  ∧ thread_allocated (length (heap w')) t').
  { destruct t; simpl in Ht.
    - destruct Hstep as ([msg ->] & -> & ->). rewrite length_app. simpl.
      split; [lia|split; [|lia]]. intros k p Hk. apply Hreg in Hk. lia.
    - destruct Hstep as (-> & -> & ->). split; [lia|split; [|done]].
      intros k p [[_ <-]|[_ Hk]]%lookup_insert_Some; eauto.
    - destruct Hstep as ([-> | ->] & -> & ->); (split; [lia|split; simpl; eauto]).
    - destruct Hstep as (-> & -> & r & ->). rewrite length_alter.
      split; [lia|split; simpl; eauto].
    - destruct Hstep as (-> & -> & ->). split; [lia|split; [|done]].
      intros k p [_ Hk]%lookup_delete_Some. eauto.
    - destruct Hstep as [-> ->]. split; [lia|split; simpl; eauto].
    - destruct Hstep as (-> & -> & ->). rewrite length_app. simpl.
      split; [lia|split].
      + intros k p [_ Hk]%lookup_delete_Some. apply Hreg in Hk. lia.
      + destruct (_promises (self w) !! to_int (msg_id msg)) as [q|] eqn:Hq; simpl.
        * apply Hreg in Hq. lia.
        * lia.
    - destruct Hstep as (-> & -> & [-> | [r ->]]); rewrite ?length_alter;
        (split; [lia|split; simpl; eauto]).
    - destruct Hstep as [-> ->]. split; [lia|split; simpl; eauto]. }
  destruct Hgoal as (Hlen & Hreg' & Ht').
  split; simpl; [done|].
  apply Forall_insert; [|done].
  eapply Forall_impl; [exact Hts|]. intros ?. by apply thread_allocated_mono.
Qed.

Lemma settled_by_heap who w w' p :
  heap w' = heap w → settled_by who w' p = settled_by who w p.
Proof. unfold settled_by, settled. by intros ->. Qed.

Lemma one_claim_advance w ts i t w' t' :
  allocated (w, ts) → one_claim (w, ts) →
  ts !! i = Some t → thread_step w t = Returns (w', t') →
  one_claim (w', <[i := t']> ts).
Proof.
  intros Hall Hone Hi Hstep p. destruct (Hone p) as [HD HF]. simpl in *.
  pose proof (sum_list_with_insert (dispatch_claim p) ts i t t' Hi) as Hd.
  pose proof (sum_list_with_insert (failure_claim p) ts i t t' Hi) as Hf.
  pose proof (fresh_promise w ts p Hall) as Hfresh. simpl in Hfresh.
  apply thread_step_effect in Hstep. simpl in Hstep.
  destruct t; simpl in *.
  - (* the promise of the call is allocated *)
    destruct Hstep as ([msg ->] & -> & Hheap).
    rewrite !(settled_by_app _ w w') by done. simpl in *.
    case_decide as Hp; [|lia]. destruct Hfresh as (?&?&?&?&?); lia.
  - (* the critical section that inserts *)
    destruct Hstep as (-> & -> & Hheap).
    rewrite !(settled_by_heap _ w w') by done. rewrite registered_insert.
    pose proof (registered_delete_le p (_promises (self w)) (to_int (msg_id msg))).
    simpl in *. case_decide; lia.
  - (* the send *)
    destruct Hstep as ([-> | ->] & -> & Hheap);
      rewrite !(settled_by_heap _ w w') by done; simpl in *; lia.
  - (* setError on the send-failure path *)
    destruct Hstep as (-> & -> & r & Hheap).
    destruct (settled_by_alter SendFailure w w' out SendFailure r p Hheap) as [Hle _].
    destruct (settled_by_alter Dispatch w w' out SendFailure r p Hheap) as [_ Heq].
    rewrite Heq by done. simpl in *.
    destruct (decide (out = p)) as [Hout|Hout].
    + rewrite decide_True in Hle by done. lia.
    + rewrite decide_False in Hle by tauto. lia.
  - (* the critical section that erases *)
    destruct Hstep as (-> & -> & Hheap).
    rewrite !(settled_by_heap _ w w') by done.
    pose proof (registered_delete_le p (_promises (self w)) (to_int (msg_id msg))).
    simpl in *. lia.
  - destruct Hstep as [-> ->]. rewrite list_insert_id by done. lia.
  - (* the critical section that takes *)
    destruct Hstep as (-> & -> & Hheap).
    rewrite !(settled_by_app _ w w') by done. simpl in *.
    destruct (_promises (self w) !! to_int (msg_id msg)) as [q|] eqn:Hq; simpl in *.
    + rewrite (registered_delete p _ _ _ Hq) in HD. lia.
    + rewrite delete_id by done.
      case_decide as Hp; [|lia]. destruct Hfresh as (?&?&?&?&?); lia.
  - (* setValue or setError on the dispatch path *)
    destruct Hstep as (-> & -> & [Hheap | [r Hheap]]).
    + rewrite !(settled_by_heap _ w w') by done. simpl in *. lia.
    + destruct (settled_by_alter Dispatch w w' promise Dispatch r p Hheap) as [Hle _].
      destruct (settled_by_alter SendFailure w w' promise Dispatch r p Hheap) as [_ Heq].
      rewrite Heq by done. simpl in *.
      destruct (decide (promise = p)) as [Hout|Hout].
      * rewrite decide_True in Hle by done. lia.
      * rewrite decide_False in Hle by tauto. lia.
  - destruct Hstep as [-> ->]. rewrite list_insert_id by done. lia.
Qed.

(** Every step keeps the invariant. *)
Lemma step_invariant c a c' :
  allocated c → one_claim c → step c a = Returns c' →
  allocated c' ∧ one_claim c'.
Proof.
  destruct c as [w ts]. intros Hall Hone Hstep. destruct a as [i|s]; simpl in Hstep.
  - destruct (ts !! i) as [t|] eqn:Hi; [|by injection Hstep as <-].
    run_inv. destruct a as [w' t']. injection Hstep as <-.
    split; [by eapply allocated_advance|by eapply one_claim_advance].
  - injection Hstep as <-. destruct (socket_becomes_inv w s) as [Hreg Hheap].
    destruct Hall as [Hr Hts]. split.
    + split; simpl in *; by rewrite ?Hreg, Hheap.
    + intros p. destruct (Hone p) as [HD HF]. simpl in *.
      by rewrite !(settled_by_heap _ w (socket_becomes w s)), Hreg.
Qed.

Lemma interleave_invariant schedule : ∀ c c',
  allocated c → one_claim c → interleave c schedule = Returns c' →
  allocated c' ∧ one_claim c'.
Proof.
  induction schedule as [|a schedule IH]; intros c c' Hall Hone Hrun; simpl in Hrun.
  - by injection Hrun as <-.
  - run_inv. destruct (step_invariant _ _ _ Hall Hone E) as [Hall' Hone']. by eapply IH.
Qed.

(** The proxy as it is built, with threads that have not started. *)
Lemma initial_invariant service mo d s ts :
  Forall starting ts →
  allocated (proxy service mo d s, ts) ∧ one_claim (proxy service mo d s, ts).
Proof.
  intros Hts. split.
  - split; simpl; [intros k p; by rewrite lookup_empty|by apply starting_allocated].
  - intros p. destruct (starting_claims p ts Hts) as [Hd Hf].
    unfold fst, snd. rewrite Hd, Hf, !settled_by_fresh by (simpl; lia).
    rewrite registered_none by (intros k; simpl; by rewrite lookup_empty). lia.
Qed.

(** *** The thread machine runs the functions *)

Lemma metaCall_as_thread w mid m in_ :
  interleave (w, [Call_begin mid m in_]) (replicate 5 (Advance 0))
  = (λ r, (r.1, [Call_return r.2])) <$> metaCall w mid m in_.
Proof.
  unfold metaCall. simpl.
  destruct (metaCall_begin w mid m in_) as [[[w1 out] msg]|]; [|done]. simpl.
  destruct (metaCall_send _ _) as [w2 []]; done.
Qed.

Lemma onMessagePending_as_thread w msg :
  interleave (w, [Dispatch_take msg]) (replicate 2 (Advance 0))
  = (λ w', (w', [Dispatch_return])) <$> onMessagePending w msg.
Proof.
  unfold onMessagePending. simpl.
  destruct (onMessagePending_take w msg) as [[w1 promise] found]. simpl.
  by destruct (onMessagePending_switch _ _ _ _).
Qed.

(** *** Inbound messages, one after the other *)

Lemma deliver_cons w msg inbound :
  deliver w (msg :: inbound) = w' ← onMessagePending w msg; deliver w' inbound.
Proof. done. Qed.

Lemma deliver_lookup mid inbound : ∀ w w',
  deliver w inbound = Returns w' →
  _promises (self w') !! to_int mid =
    if forallb (λ msg, negb (carries mid msg)) inbound
    then _promises (self w) !! to_int mid else None.
Proof.
  induction inbound as [|msg inbound IH]; intros w w' Hrun.
  - by injection Hrun as <-.
  - rewrite deliver_cons in Hrun. run_inv. rewrite (IH _ _ Hrun).
    apply onMessagePending_spec in E as (_ & _ & _ & _ & -> & _).
    simpl. unfold carries at 2. case_bool_decide as Hid; simpl.
    + rewrite Hid, lookup_delete_eq. by destruct (forallb _ _).
    + by rewrite lookup_delete_ne.
Qed.

Lemma quiescent_deliver inbound w w' :
  quiescent w → deliver w inbound = Returns w' → quiescent w'.
Proof. apply quiescent_exec. Qed.

Lemma answers_carries mid msg : answers mid msg = true → carries mid msg = true.
Proof. unfold answers, carries. by intros [_ ?]%andb_prop. Qed.

Lemma in_flight_undisturbed failed mid inbound :
  in_flight failed mid inbound = false →
  failed = true ∨ forallb (λ msg, negb (carries mid msg)) inbound = false.
Proof.
  unfold in_flight. destruct failed; [by left|]. simpl. intros Hfl. right.
  induction inbound as [|msg inbound IH]; [done|]. simpl in *.
  destruct (answers mid msg) eqn:Hans; simpl in *.
  - by rewrite (answers_carries _ _ Hans).
  - rewrite (IH Hfl). by destruct (carries mid msg).
Qed.

(** *** Operations that do not use an id leave its entry alone *)

Lemma exec_lookup mid later : ∀ w w',
  exec w later = Returns w' →
  forallb (λ o, negb (uses_id mid o)) later = true →
  _promises (self w') !! to_int mid = _promises (self w) !! to_int mid.
Proof.
  induction later as [|o later IH]; intros w w' Hrun Hfree; simpl in Hrun.
  - by injection Hrun as <-.
  - simpl in Hfree. apply andb_prop in Hfree as [Ho Hfree]. run_inv.
    rewrite (IH _ _ Hrun Hfree).
    apply negb_true_iff in Ho. destruct o; simpl in E, Ho.
    + run_inv. destruct a0 as [w1 fut]. simpl.
      apply bool_decide_eq_false in Ho.
      apply metaCall_spec in E0 as (_ & _ & _ & _ & _ & Hreg & _). rewrite Hreg.
      destruct (transport_unavailable _ _);
        [by rewrite lookup_delete_ne|by rewrite lookup_insert_ne].
    + apply bool_decide_eq_false in Ho.
      apply onMessagePending_spec in E as (_ & _ & _ & _ & Hreg & _). rewrite Hreg.
      by rewrite lookup_delete_ne.
    + apply metaEmit_inv in E as [Hself _]. by rewrite Hself.
    + run_inv. destruct a0 as [w1 uid]. apply connect_inv in E0 as [Hreg _].
      simpl. by rewrite Hreg.
    + run_inv. destruct a0 as [w1 ok]. apply disconnect_inv in E0 as [Hreg _].
      simpl. by rewrite Hreg.
    + injection E as <-. destruct (socket_becomes_inv w s) as [Hreg _]. by rewrite Hreg.
Qed.

(** ** The claims on the pending-call registry *)

(** C1, as the code has it. For a call made on a proxy after any history,
    the calls and the dispatches running one after the other: the entry
    for its id is inserted inside the critical section ([EvLock] ...
    [EvInsert] [EvUnlock]) and nothing but log lines comes before it, so
    the insertion precedes the hand-off to [send]; when the send goes
    through, the entry is there on return and the promise is unresolved,
    and stays so through any later operations on the proxy among which
    there is neither the dispatch of a message that carries the id nor a
    call that draws it; when the send fails the id is absent on return;
    and once a message that carries the id has been dispatched, a Reply,
    an Error or any other, the id is absent from the registry, and it
    stays absent as long as only inbound messages are dispatched. *)
Theorem registry_entry_of_call service mo d s history w mid m in_ w1 fut :
  exec (proxy service mo d s) history = Returns w →
  metaCall w mid m in_ = Returns (w1, fut) →
  let k := to_int mid in
  let msg := call_message w mid m in_ in
  let failed := transport_unavailable w msg in
  (∃ before dup,
      Forall is_log before ∧ Forall is_log dup
      ∧ trace w1 =
          trace w ++ before ++ [EvLock] ++ dup ++ [EvInsert k fut; EvUnlock]
            ++ handed_to_socket w msg
            ++ (if failed then send_failure_events w mid m fut else []))
  ∧ (failed = false → _promises (self w1) !! k = Some fut ∧ settled w1 fut = [])
  ∧ (failed = true → _promises (self w1) !! k = None)
  ∧ ∀ later w2,
      exec w1 later = Returns w2 →
      forallb (λ o, negb (uses_id mid o)) later = true →
      (failed = false → _promises (self w2) !! k = Some fut ∧ settled w2 fut = [])
      ∧ (failed = true → _promises (self w2) !! k = None)
      ∧ ∀ inbound w3,
          deliver w2 inbound = Returns w3 →
          (forallb (λ msg, negb (carries mid msg)) inbound = false →
           _promises (self w3) !! k = None)
          ∧ (in_flight failed mid inbound = false → _promises (self w3) !! k = None)
          ∧ (failed = false →
             forallb (λ msg, negb (carries mid msg)) inbound = true →
             _promises (self w3) !! k = Some fut ∧ settled w3 fut = []).
Proof.
  intros Hhist Hcall. cbv zeta.
  pose proof (quiescent_exec _ _ _ (quiescent_proxy service mo d s) Hhist) as Hq.
  pose proof (quiescent_metaCall _ _ _ _ _ _ Hq Hcall) as Hq1.
  destruct (metaCall_spec _ _ _ _ _ _ Hcall)
    as (-> & _ & _ & _ & _ & Hreg & Hheap & dbg & Hdbg & Htrace).
  set (failed := transport_unavailable w (call_message w mid m in_)) in *.
  assert (Hok : failed = false →
                _promises (self w1) !! to_int mid = Some (length (heap w))).
  { intros Hf. rewrite Hreg, Hf. apply lookup_insert_eq. }
  assert (Hko : failed = true → _promises (self w1) !! to_int mid = None).
  { intros Hf. rewrite Hreg, Hf. apply lookup_delete_eq. }
  split; [|split; [|split]].
  - exists dbg,
      (if decide (is_Some (_promises (self w) !! to_int mid))
       then [duplicate_id_log mid] else []).
    split; [done|]. split; [|done]. case_decide; by repeat constructor.
  - intros Hf. split; [by apply Hok|].
    unfold settled. rewrite Hheap, Hf, lookup_app_r, Nat.sub_diag by lia. done.
  - done.
  - intros later w2 Hlater Hfree.
    pose proof (exec_lookup mid _ _ _ Hlater Hfree) as Hsame.
    pose proof (quiescent_exec _ _ _ Hq1 Hlater) as Hq2.
    split; [|split].
    + intros Hf. rewrite Hsame. split; [by apply Hok|].
      destruct Hq2 as (Hreg2 & _). unfold settled.
      erewrite Hreg2; [done|]. rewrite Hsame. by apply Hok.
    + intros Hf. rewrite Hsame. by apply Hko.
    + intros inbound w3 Hdel. rewrite (deliver_lookup mid _ _ _ Hdel), Hsame.
      split; [|split].
      * by intros ->.
      * intros [Hf | ->]%in_flight_undisturbed; [|done].
        rewrite (Hko Hf). by destruct (forallb _ inbound).
      * intros Hf Hnone. rewrite Hnone. split; [by apply Hok|].
        pose proof (quiescent_deliver _ _ _ Hq2 Hdel) as (Hreg3 & _).
        unfold settled. erewrite Hreg3; [done|].
        rewrite (deliver_lookup mid _ _ _ Hdel), Hnone, Hsame. by apply Hok.
Qed.

(** C2, as the code has it. Whatever the threads and whatever the
    schedule, a promise receives at most one [setValue]/[setError] from
    the switch of [onMessagePending] and at most one [setError] from the
    send-failure branch of [metaCall], hence two at most; when the calls
    and the dispatches run one after the other, every promise receives
    one at most. *)
Theorem promise_settled_once_per_path service mo d s :
  (∀ ts schedule w' ts' p,
      Forall starting ts →
      interleave (proxy service mo d s, ts) schedule = Returns (w', ts') →
      (settled_by Dispatch w' p ≤ 1)%nat
      ∧ (settled_by SendFailure w' p ≤ 1)%nat
      ∧ (length (settled w' p) ≤ 2)%nat)
  ∧ (∀ ops w' p,
      exec (proxy service mo d s) ops = Returns w' →
      (length (settled w' p) ≤ 1)%nat).
Proof.
  split.
  - intros ts schedule w' ts' p Hts Hrun.
    destruct (initial_invariant service mo d s ts Hts) as [Hall Hone].
    destruct (interleave_invariant _ _ _ Hall Hone Hrun) as [_ Hone'].
    destruct (Hone' p) as [HD HF]. simpl in *. rewrite settled_split. lia.
  - intros ops w' p Hrun.
    by destruct (quiescent_exec _ _ _ (quiescent_proxy service mo d s) Hrun) as (_ & _ & Hlen).
Qed.

(** C3, as the code has it. When the id of the new message is already
    in the registry, under a promise [old], the call logs the error
    inside the critical section and then inserts all the same: the entry
    now holds the new promise, which is not [old]. *)
Theorem duplicate_id_overwrites w mid m in_ old w' fut :
  _promises (self w) !! to_int mid = Some old →
  (old < length (heap w))%nat →
  metaCall w mid m in_ = Returns (w', fut) →
  fut ≠ old
  ∧ (∃ before after,
        trace w' = trace w ++ before
          ++ [EvLock; duplicate_id_log mid; EvInsert (to_int mid) fut; EvUnlock] ++ after)
  ∧ is_error_log (duplicate_id_log mid)
  ∧ _promises (self w') !! to_int mid ≠ Some old
  ∧ (transport_unavailable w (call_message w mid m in_) = false →
     _promises (self w') !! to_int mid = Some fut).
Proof.
  intros Hold Hlt Hcall.
  destruct (metaCall_spec _ _ _ _ _ _ Hcall)
    as (-> & _ & _ & _ & _ & Hreg & _ & dbg & _ & Htrace).
  rewrite decide_True in Htrace by eauto.
  split; [lia|]. split; [|split; [done|]].
  - exists dbg. eexists. rewrite Htrace. simpl. done.
  - rewrite Hreg. destruct (transport_unavailable _ _).
    + rewrite lookup_delete_eq. split; [done|done].
    + rewrite lookup_insert_eq. split; [|done]. intros [= Heq]. lia.
Qed.


(** C4, where the code departs from it. In a build without [NDEBUG],
    a call of a method the meta-object does not know dereferences the
    null [MetaMethod*] at line 138, before the registry and the socket
    are touched: no future comes back, whatever the socket. *)
Theorem metaCall_unknown_method_debug_build w mid m in_ :
  NDEBUG = false →
  method (metaObject (self w)) m = None →
  metaCall w mid m in_ = Crashes NullDereference.
Proof.
  intros Hdebug Hm. apply metaCall_crashes.
  unfold metaCall_debug_check. by rewrite Hdebug, Hm.
Qed.

(** ** The claims on the inbound Reply and Error messages *)

(** A Reply whose id is not in the registry is logged at error level
    and dropped; the only promise the dispatch has created stays
    unresolved. *)
Lemma reply_for_unknown_id_dropped w msg :
  msg_type msg = Type_Reply →
  _promises (self w) !! to_int (msg_id msg) = None →
  ∃ w',
    onMessagePending w msg = Returns w'
    ∧ _promises (self w') = _promises (self w)
    ∧ heap w' = heap w ++ [[]]
    ∧ ∃ line,
        is_error_log line
        ∧ trace w' =
            trace w ++ [qiLog Debug "RemoteObject"
                          [LThis; LStr " msg "; LType (msg_type msg); LStr " ";
                           LNum (buffer_size (msg_buffer msg))];
                        EvLock; EvUnlock; line].
Proof.
  intros Hty Hk. unfold onMessagePending. rewrite onMessagePending_take_eq.
  rewrite Hk. unfold onMessagePending_switch. rewrite Hty. simpl.
  eexists; split; [done|]. simpl. rewrite delete_id by done.
  split; [done|]. split; [done|].
  eexists; split; [|by rewrite <- app_assoc]. done.
Qed.

(** C5, where the code departs from it. An Error whose id is not in the
    registry and whose payload is a well-formed [s] error is not dropped:
    the switch does not look at [found], the only line it logs is at
    verbose level, and the default-constructed promise of the dispatch
    receives [setError]. *)
Theorem error_for_unknown_id_settles_a_promise w msg :
  msg_type msg = Type_Error →
  _promises (self w) !! to_int (msg_id msg) = None →
  (read_string (msg_buffer msg)).1 = "s" →
  ∃ w' new,
    onMessagePending w msg = Returns w'
    ∧ heap w' = heap w ++ [[(Dispatch, error_outcome msg)]]
    ∧ trace w' = trace w ++ new
    ∧ Forall (λ e, ¬ is_error_log e) new
    ∧ EvSettle (length (heap w)) (error_outcome msg) ∈ new.
Proof.
  intros Hty Hk Hsig. unfold onMessagePending. rewrite onMessagePending_take_eq.
  rewrite Hk. unfold onMessagePending_switch. rewrite Hty. simpl.
  unfold onMessagePending_error, error_outcome.
  destruct (read_string (msg_buffer msg)) as [sig ds]. simpl in Hsig. subst sig.
  destruct (read_string ds) as [err ds'].
  rewrite decide_False by (by intros []). rewrite decide_True by done.
  eexists _, _. split; [done|]. simpl.
  rewrite alter_app_r_alt, Nat.sub_diag by lia. split; [done|].
  split; [by rewrite <- !app_assoc|]. split.
  - repeat constructor; by intros [].
  - simpl. set_solver.
Qed.

(** C7. An Error whose id is in the registry, under the promise [p]:
    the dispatch returns and [p] receives exactly one more [setError],
    with the second string of the payload when the first one is ["s"],
    with ["unknown error"] otherwise; no other promise is touched. *)
Theorem error_message_settles_pending_call w msg p :
  msg_type msg = Type_Error →
  _promises (self w) !! to_int (msg_id msg) = Some p →
  (p < length (heap w))%nat →
  let '(sig, ds) := read_string (msg_buffer msg) in
  let '(err, _) := read_string ds in
  ∃ w',
    onMessagePending w msg = Returns w'
    ∧ settled w' p =
        settled w p ++ [(Dispatch, setError (if decide (sig = "s") then err
                                             else "unknown error"))]
    ∧ ∀ q, q ≠ p → (q < length (heap w))%nat → settled w' q = settled w q.
Proof.
  intros Hty Hk Hp.
  destruct (read_string (msg_buffer msg)) as [sig ds] eqn:Hsig.
  destruct (read_string ds) as [err ds'] eqn:Herr.
  destruct (onMessagePending_returns w msg) as [w' Hrun]; [by rewrite Hty|].
  exists w'. split; [done|].
  apply onMessagePending_spec in Hrun as (_ & _ & _ & _ & _ & Hheap & _).
  rewrite Hk in Hheap. unfold dispatch_outcome in Hheap. rewrite Hty in Hheap.
  unfold error_outcome in Hheap. rewrite Hsig, Herr in Hheap. simpl in Hheap.
  unfold settled. rewrite Hheap. split.
  - rewrite list_lookup_alter_eq, lookup_app_l by done.
    destruct (lookup_lt_is_Some_2 _ _ Hp) as [l ->]. simpl. by case_decide.
  - intros q Hne Hq. by rewrite list_lookup_alter_ne, lookup_app_l.
Qed.

(** ** The claims on the socket pointer *)


(** ** The claim on the messages that are neither Reply nor Error *)

(** The dispatch of an Event returns unless the signature of the signal
    splits in fewer than three parts. *)
Lemma onMessagePending_event_returns w msg :
  (∀ sig, signalBase (base (self w)) (msg_event msg) = Some sig →
          (2 < length (signatureSplit sig))%nat) →
  ∃ w', onMessagePending w msg = Returns w'.
Proof.
  intros Hsplit. destruct (decide (msg_type msg = Type_Event)) as [Hty|Hty];
    [|by apply onMessagePending_returns].
  unfold onMessagePending. rewrite onMessagePending_take_eq.
  unfold onMessagePending_switch. rewrite Hty.
  unfold onMessagePending_event, try_catch, vector_at. simpl.
  destruct (signalBase _ _) as [sig|]; [|by eauto].
  destruct (lookup_lt_is_Some_2 (signatureSplit sig) 2%nat) as [part ->]; [by eauto|].
  simpl. unfold substr. destruct (_ <? 1); simpl; [by eauto|].
  destruct (fromBuffer _ _); eauto.
Qed.

(** C10. On a proxy reached by any history, a dispatch that returns has
    erased the entry of the id of the message, whatever its type, and
    the erasure, inside the critical section, comes before anything the
    switch on the type does; when the message is neither a Reply nor an
    Error and the id was that of a pending call, the promise of that call
    is left unresolved, and no later call on the proxy resolves it. The
    dispatch does return for every type but Event, and for an Event under
    the condition of [onMessagePending_event_returns]. *)
Theorem dispatch_erases_entry_of_any_message service mo d s history w msg w' :
  exec (proxy service mo d s) history = Returns w →
  onMessagePending w msg = Returns w' →
  _promises (self w') = delete (to_int (msg_id msg)) (_promises (self w))
  ∧ (msg_type msg ≠ Type_Event → ∀ v, ∃ v', onMessagePending v msg = Returns v')
  ∧ ∀ p,
      _promises (self w) !! to_int (msg_id msg) = Some p →
      (∃ line switch,
          is_log line
          ∧ trace w' = trace w
              ++ [line; EvLock; EvErase (to_int (msg_id msg)); EvUnlock] ++ switch)
      ∧ (msg_type msg ≠ Type_Reply → msg_type msg ≠ Type_Error →
         _promises (self w') !! to_int (msg_id msg) = None
         ∧ settled w' p = []
         ∧ ∀ later w'', exec w' later = Returns w'' → settled w'' p = []).
Proof.
  intros Hhist Hrun.
  pose proof (quiescent_exec _ _ _ (quiescent_proxy service mo d s) Hhist) as Hq.
  pose proof (quiescent_onMessagePending _ _ _ Hq Hrun) as Hq'.
  destruct (onMessagePending_spec _ _ _ Hrun)
    as (_ & _ & _ & _ & Hreg & Hheap & ev & Htrace).
  split; [done|]. split; [intros Hty v; by apply onMessagePending_returns|].
  intros p Hk. split.
  { rewrite Hk in Htrace. eexists _, ev. split; [|exact Htrace]. done. }
  intros Hreply Herror.
  assert (Hnone : dispatch_outcome w msg
                    (bool_decide (is_Some (_promises (self w) !! to_int (msg_id msg)))) = None).
  { unfold dispatch_outcome. by destruct (msg_type msg). }
  rewrite Hnone in Hheap.
  destruct Hq as (Hcell & Hinj & _).
  assert (Hp : settled w' p = []).
  { unfold settled. rewrite Hheap, lookup_app_l by (eapply lookup_lt_Some, Hcell, Hk).
    by rewrite (Hcell _ _ Hk). }
  assert (Hun : unreachable w' p).
  { split.
    - rewrite Hheap, length_app. apply Hcell, lookup_lt_Some in Hk. lia.
    - intros k'. rewrite Hreg. intros [Hne Hk']%lookup_delete_Some.
      by apply Hne, (Hinj _ _ p). }
  split; [rewrite Hreg; apply lookup_delete_eq|]. split; [done|].
  intros later w'' Hlater.
  destruct (unreachable_exec _ _ _ _ Hun Hlater) as [_ ->]. done.
Qed.

End Proofs.

(** * Properties of the transport server *)

Section ServerProofs.
Context `{pf : Server.Platform}.
Import Server.

(** [start] answers false exactly when [inet_addr] rejects the host. *)
Lemma start_result p base url :
  (start p base url).2 = bool_decide (inet_addr (host url) ≠ INADDR_NONE).
Proof.
  unfold start. case_decide as Haddr; simpl.
  - by rewrite bool_decide_eq_false_2 by tauto.
  - by rewrite bool_decide_eq_true_2.
Qed.

(** C6, where the code departs from it. [start] does not read the
    listener that [evconnlistener_new_bind] returns: when the host
    parses and the bind fails, it records the failed bind and returns
    true all the same. *)
Theorem start_returns_true_when_bind_fails p base url :
  inet_addr (host url) ≠ INADDR_NONE →
  evconnlistener_new_bind base
    (Z.lor (Z.lor LEV_OPT_CLOSE_ON_FREE LEV_OPT_CLOSE_ON_EXEC) LEV_OPT_REUSEABLE)
    (-1) (AF_INET, htons (port url mod 2 ^ 16), inet_addr (host url))
    sizeof_sockaddr_in = None →
  start p base url
  = (record p [EvBind base AF_INET (htons (port url mod 2 ^ 16)) (inet_addr (host url)) false],
     true).
Proof.
  intros Haddr Hbind. unfold start. rewrite decide_False by done. by rewrite Hbind.
Qed.

(** C8, as the code has it. [accept] queues the new socket and then
    calls [newConnection()] on the delegate pointer without testing it:
    with no delegate installed the call dereferences a null pointer, with
    a delegate it notifies it once; [setCallbacks] is what installs it. *)
Theorem accept_dereferences_delegate p fd listener :
  accept p fd listener
  = match tsi p with
    | None => Crashes NullDereference
    | Some d =>
        Returns {| connection := connection p
                     ++ [{| fd := fd; event_base := evconnlistener_get_base listener |}];
                   tsi := Some d;
                   trace := trace p ++ [EvNewConnection d] |}
    end
  ∧ ∀ d, tsi (setCallbacks p (Some d)) = Some d.
Proof.
  split; [|done]. unfold accept. simpl. by destruct (tsi p).
Qed.

End ServerProofs.

(** * The properties on concrete runs *)

Section Runs.
Import Fixture.
Local Existing Instance release.

Lemma returned_spec {A} (r : Run A) (otherwise : A) :
  returns r = true → r = Returns (returned r otherwise).
Proof. by destruct r. Qed.

Lemma returned_pair {A B} (r : Run (A * B)) (otherwise : A * B) :
  returns r = true → r = Returns ((returned r otherwise).1, (returned r otherwise).2).
Proof. by destruct r as [[a b]|]. Qed.

(** The call 1 of method 3 on a connected socket: the entry is there on
    return, under the promise of the call, which is unresolved, and it
    is still there after the call 2. *)
Lemma registry_entry_of_call_witness :
  exec idle [] = Returns idle
  ∧ metaCall idle 1 3 hello = Returns (first_call.1, first_call.2)
  ∧ transport_unavailable idle (call_message idle 1 3 hello) = false
  ∧ exec first_call.1 [OpMetaCall 2 3 hello] = Returns called_twice
  ∧ forallb (λ o, negb (uses_id 1 o)) [OpMetaCall 2 3 hello] = true
  ∧ _promises (self first_call.1) !! to_int 1 = Some first_call.2
  ∧ settled first_call.1 first_call.2 = []
  ∧ _promises (self called_twice) !! to_int 1 = Some first_call.2
  ∧ settled called_twice first_call.2 = [].
Proof.
  assert (Hhist : exec idle [] = Returns idle) by reflexivity.
  assert (Hcall : metaCall idle 1 3 hello = Returns (first_call.1, first_call.2)).
  { apply (returned_pair (metaCall idle 1 3 hello) (idle, 0%nat)). vm_compute. reflexivity. }
  assert (Hsent : transport_unavailable idle (call_message idle 1 3 hello) = false)
    by (vm_compute; reflexivity).
  assert (Hlater : exec first_call.1 [OpMetaCall 2 3 hello] = Returns called_twice).
  { apply (returned_spec (exec first_call.1 [OpMetaCall 2 3 hello]) idle).
    vm_compute. reflexivity. }
  assert (Hfree : forallb (λ o, negb (uses_id 1 o)) [OpMetaCall 2 3 hello] = true)
    by (vm_compute; reflexivity).
  split; [exact Hhist|]. split; [exact Hcall|]. split; [exact Hsent|].
  split; [exact Hlater|]. split; [exact Hfree|].
  destruct (registry_entry_of_call (rt := release) 7 meta no_signals (Some connected) []
              idle 1 3 hello first_call.1 first_call.2 Hhist Hcall)
    as (_ & Hok & _ & Hstays).
  destruct (Hok Hsent) as [Hthere Hpending].
  destruct (Hstays [OpMetaCall 2 3 hello] called_twice Hlater Hfree) as (Hstill & _).
  destruct (Hstill Hsent) as [Hthere' Hpending'].
  split; [exact Hthere|]. split; [exact Hpending|]. split; [exact Hthere'|]. exact Hpending'.
Defined.

(** C1 as stated fails: the call 1 has been sent and neither a Reply nor
    an Error has come in, so it is in flight; an Event that carries the
    id 1 is dispatched, and the registry no longer holds the id while the
    promise of the call is unresolved. *)
Lemma event_unregisters_call_in_flight :
  metaCall idle 1 3 hello = Returns (first_call.1, first_call.2)
  ∧ transport_unavailable idle (call_message idle 1 3 hello) = false
  ∧ deliver first_call.1 [event_1] = Returns first_call_then_event
  ∧ in_flight false 1 [event_1] = true
  ∧ _promises (self first_call.1) !! to_int 1 = Some first_call.2
  ∧ _promises (self first_call_then_event) !! to_int 1 = None
  ∧ settled first_call_then_event first_call.2 = [].
Proof.
  split.
  { apply (returned_pair (metaCall idle 1 3 hello) (idle, 0%nat)). vm_compute. reflexivity. }
  split; [vm_compute; reflexivity|].
  split.
  { apply (returned_spec (deliver first_call.1 [event_1]) idle). vm_compute. reflexivity. }
  repeat split; vm_compute; reflexivity.
Qed.

(** The racing threads, and one call after the other. *)
Lemma promise_settled_once_per_path_witness :
  Forall starting racing_threads
  ∧ interleave (idle_refusing, racing_threads) racing_schedule = Returns (raced.1, raced.2)
  ∧ exec idle [OpMetaCall 1 3 hello] = Returns called
  ∧ (settled_by Dispatch raced.1 0 ≤ 1)%nat
  ∧ (settled_by SendFailure raced.1 0 ≤ 1)%nat
  ∧ (length (settled raced.1 0) ≤ 2)%nat
  ∧ (length (settled called 0) ≤ 1)%nat.
Proof.
  assert (Hts : Forall starting racing_threads) by (repeat constructor).
  assert (Hrun : interleave (idle_refusing, racing_threads) racing_schedule
                 = Returns (raced.1, raced.2)).
  { apply (returned_pair (interleave (idle_refusing, racing_threads) racing_schedule)
             (idle_refusing, [])).
    vm_compute. reflexivity. }
  assert (Hseq : exec idle [OpMetaCall 1 3 hello] = Returns called).
  { apply (returned_spec (exec idle [OpMetaCall 1 3 hello]) idle). vm_compute. reflexivity. }
  destruct (promise_settled_once_per_path (rt := release) 7 meta no_signals (Some refusing))
    as [Hthreads _].
  destruct (promise_settled_once_per_path (rt := release) 7 meta no_signals (Some connected))
    as [_ Hcalls].
  destruct (Hthreads racing_threads racing_schedule raced.1 raced.2 0%nat Hts Hrun)
    as (HD & HF & Hlen).
  split; [exact Hts|]. split; [exact Hrun|]. split; [exact Hseq|].
  split; [exact HD|]. split; [exact HF|]. split; [exact Hlen|].
  exact (Hcalls _ _ 0%nat Hseq).
Defined.

(** C2 as stated fails: the call 1 inserts its promise, the event loop
    dispatches a Reply that carries the id 1, takes the promise and sets
    its value, then the send of the call fails and [metaCall] sets the
    error on the same promise. *)
Lemma reply_races_send_failure :
  interleave (idle_refusing, racing_threads) racing_schedule = Returns raced
  ∧ settled raced.1 0
    = [(Dispatch, setValue ["42"]%string);
       (SendFailure, setError "Network error while sending data to method: 'ping::(s)'")]
  ∧ ¬ (length (settled raced.1 0) ≤ 1)%nat.
Proof.
  split.
  { apply (returned_spec (interleave (idle_refusing, racing_threads) racing_schedule)
             (idle_refusing, [])).
    vm_compute. reflexivity. }
  split; [vm_compute; reflexivity|]. vm_compute. lia.
Qed.

(** A second call that draws the id 1 while the first one is pending. *)
Lemma duplicate_id_overwrites_witness :
  _promises (self called) !! to_int 1 = Some 0%nat
  ∧ (0 < length (heap called))%nat
  ∧ metaCall called 1 3 hello = Returns (second_call.1, second_call.2)
  ∧ transport_unavailable called (call_message called 1 3 hello) = false
  ∧ second_call.2 ≠ 0%nat
  ∧ _promises (self second_call.1) !! to_int 1 ≠ Some 0%nat
  ∧ _promises (self second_call.1) !! to_int 1 = Some second_call.2.
Proof.
  assert (Hold : _promises (self called) !! to_int 1 = Some 0%nat)
    by (vm_compute; reflexivity).
  assert (Hlt : (0 < length (heap called))%nat) by (vm_compute; lia).
  assert (Hcall : metaCall called 1 3 hello = Returns (second_call.1, second_call.2)).
  { apply (returned_pair (metaCall called 1 3 hello) (called, 0%nat)). vm_compute. reflexivity. }
  assert (Hsent : transport_unavailable called (call_message called 1 3 hello) = false)
    by (vm_compute; reflexivity).
  destruct (duplicate_id_overwrites (rt := release) called 1 3 hello 0%nat
              second_call.1 second_call.2 Hold Hlt Hcall) as (Hne & _ & _ & Hnot & Hnew).
  split; [exact Hold|]. split; [exact Hlt|]. split; [exact Hcall|].
  split; [exact Hsent|]. split; [exact Hne|]. split; [exact Hnot|]. exact (Hnew Hsent).
Defined.

(** C3 as stated fails: the id 1 is in the registry under the promise 0;
    the second call leaves it under the promise 1. *)
Lemma duplicate_id_entry_is_overwritten :
  _promises (self called) !! to_int 1 = Some 0%nat
  ∧ metaCall called 1 3 hello = Returns (second_call.1, second_call.2)
  ∧ _promises (self second_call.1) !! to_int 1 = Some 1%nat
  ∧ _promises (self second_call.1) !! to_int 1 ≠ Some 0%nat.
Proof.
  split; [vm_compute; reflexivity|].
  split.
  { apply (returned_pair (metaCall called 1 3 hello) (called, 0%nat)). vm_compute. reflexivity. }
  split; [vm_compute; reflexivity|]. vm_compute. discriminate.
Qed.

(** The method 4 is unknown; the build has no [NDEBUG], the socket is null. *)
Lemma metaCall_unknown_method_debug_build_witness :
  @NDEBUG debug = false
  ∧ method (metaObject (self debug_no_socket)) 4 = None
  ∧ @metaCall debug debug_no_socket 1 4 hello = Crashes NullDereference.
Proof.
  split; [reflexivity|]. split; [reflexivity|].
  apply (metaCall_unknown_method_debug_build (rt := debug)); reflexivity.
Defined.

(** An Error for the id 5, which no call has drawn. *)
Lemma error_for_unknown_id_settles_a_promise_witness :
  msg_type (error 5 boom) = Type_Error
  ∧ _promises (self idle) !! to_int (msg_id (error 5 boom)) = None
  ∧ (read_string (msg_buffer (error 5 boom))).1 = "s"%string
  ∧ ∃ w' new,
      onMessagePending idle (error 5 boom) = Returns w'
      ∧ heap w' = heap idle ++ [[(Dispatch, error_outcome (error 5 boom))]]
      ∧ trace w' = trace idle ++ new
      ∧ Forall (λ e, ¬ is_error_log e) new
      ∧ EvSettle (length (heap idle)) (error_outcome (error 5 boom)) ∈ new.
Proof.
  split; [reflexivity|]. split; [reflexivity|]. split; [reflexivity|].
  apply (error_for_unknown_id_settles_a_promise (rt := release)); reflexivity.
Defined.

(** The Error for the pending call 1, with the text "boom". *)
Lemma error_message_settles_pending_call_witness :
  msg_type (error 1 boom) = Type_Error
  ∧ _promises (self called) !! to_int (msg_id (error 1 boom)) = Some 0%nat
  ∧ (0 < length (heap called))%nat
  ∧ ∃ w',
      onMessagePending called (error 1 boom) = Returns w'
      ∧ settled w' 0 = settled called 0 ++ [(Dispatch, setError "boom")]
      ∧ ∀ q, q ≠ 0%nat → (q < length (heap called))%nat → settled w' q = settled called q.
Proof.
  assert (Hk : _promises (self called) !! to_int (msg_id (error 1 boom)) = Some 0%nat)
    by (vm_compute; reflexivity).
  assert (Hlt : (0 < length (heap called))%nat) by (vm_compute; lia).
  split; [reflexivity|]. split; [exact Hk|]. split; [exact Hlt|].
  exact (error_message_settles_pending_call (rt := release) called
           (error 1 boom) 0%nat eq_refl Hk Hlt).
Defined.



(** The call 1 is pending when an Event that carries the id 1 comes in. *)
Lemma dispatch_erases_entry_of_any_message_witness :
  exec idle [OpMetaCall 1 3 hello] = Returns called
  ∧ onMessagePending called event_1 = Returns called_then_event
  ∧ msg_type event_1 ≠ Type_Reply
  ∧ msg_type event_1 ≠ Type_Error
  ∧ _promises (self called) !! to_int (msg_id event_1) = Some 0%nat
  ∧ _promises (self called_then_event) !! to_int (msg_id event_1) = None
  ∧ settled called_then_event 0 = []
  ∧ ∀ later w'', exec called_then_event later = Returns w'' → settled w'' 0 = [].
Proof.
  assert (Hhist : exec idle [OpMetaCall 1 3 hello] = Returns called).
  { apply (returned_spec (exec idle [OpMetaCall 1 3 hello]) idle). vm_compute. reflexivity. }
  assert (Hrun : onMessagePending called event_1 = Returns called_then_event).
  { apply (returned_spec (onMessagePending called event_1) idle). vm_compute. reflexivity. }
  assert (Hreply : msg_type event_1 ≠ Type_Reply) by discriminate.
  assert (Herror : msg_type event_1 ≠ Type_Error) by discriminate.
  assert (Hk : _promises (self called) !! to_int (msg_id event_1) = Some 0%nat)
    by (vm_compute; reflexivity).
  destruct (dispatch_erases_entry_of_any_message (rt := release) 7 meta no_signals
              (Some connected) [OpMetaCall 1 3 hello] called event_1
              called_then_event Hhist Hrun) as (_ & _ & Hlost).
  destruct (Hlost 0%nat Hk) as (_ & Hgone).
  destruct (Hgone Hreply Herror) as (Hnone & Hp & Hlater).
  split; [exact Hhist|]. split; [exact Hrun|]. split; [exact Hreply|].
  split; [exact Herror|]. split; [exact Hk|]. split; [exact Hnone|].
  split; [exact Hp|]. exact Hlater.
Defined.

End Runs.

Section ServerRuns.
Import Fixture.
Local Existing Instance bind_refused.

(** 127.0.0.1 parses; the platform refuses every bind. *)
Lemma start_returns_true_when_bind_fails_witness :
  Server.inet_addr (Server.host localhost) ≠ Server.INADDR_NONE
  ∧ Server.evconnlistener_new_bind ()
      (Z.lor (Z.lor Server.LEV_OPT_CLOSE_ON_FREE Server.LEV_OPT_CLOSE_ON_EXEC)
         Server.LEV_OPT_REUSEABLE)
      (-1)
      (Server.AF_INET, Server.htons (Server.port localhost mod 2 ^ 16),
       Server.inet_addr (Server.host localhost))
      Server.sizeof_sockaddr_in = None
  ∧ (Server.start Server.TransportServer_new () localhost).2 = true.
Proof.
  assert (Haddr : Server.inet_addr (Server.host localhost) ≠ Server.INADDR_NONE)
    by (vm_compute; discriminate).
  split; [exact Haddr|]. split; [reflexivity|].
  rewrite (start_returns_true_when_bind_fails (pf := bind_refused)
             Server.TransportServer_new () localhost Haddr eq_refl).
  reflexivity.
Defined.

(** C8 as stated fails: a connection accepted on a server on which
    [setCallbacks] has not been called does not go unnoticed, the accept
    callback dereferences the null delegate. *)
Lemma accept_before_setCallbacks_crashes :
  Server.accept Server.TransportServer_new 5 () = Crashes NullDereference.
Proof. reflexivity. Qed.

End ServerRuns.

(** * Further properties of the remote object proxy *)

Section Calls.
Context `{rt : Runtime}.

Local Ltac run_inv :=
  repeat match goal with
  | H : Returns _ = Returns _ |- _ => injection H as H; subst
  | H : (_, _) = (_, _) |- _ => injection H as H; subst
  | H : Crashes _ = Returns _ |- _ => discriminate H
  | H : Returns _ = Crashes _ |- _ => discriminate H
  | H : mbind _ ?r = Returns _ |- _ =>
      let E := fresh "E" in destruct r eqn:E; simpl in H; [|discriminate H]
  | H : fmap _ ?r = Returns _ |- _ =>
      let E := fresh "E" in destruct r eqn:E; simpl in H; [|discriminate H]
  end.

(** The round trip of a call. A call is sent, then a Reply that carries
    its id is dispatched: the dispatch returns, the future of the call
    holds exactly one resolution, made by the dispatch path, decided by
    the function id and the payload of the Reply (the value deserialised
    at the return type of that method when the method and the type are
    known), and the registry is what it was before the call, less the
    id. *)
Theorem reply_resolves_call w mid m in_ w1 fut reply :
  metaCall w mid m in_ = Returns (w1, fut) →
  transport_unavailable w (call_message w mid m in_) = false →
  msg_type reply = Type_Reply →
  to_int (msg_id reply) = to_int mid →
  ∃ w2,
    onMessagePending w1 reply = Returns w2
    ∧ settled w2 fut = [(Dispatch, reply_outcome w reply)]
    ∧ _promises (self w2) = delete (to_int mid) (_promises (self w))
    ∧ (∀ mm type,
         method (metaObject (self w)) (msg_function reply) = Some mm →
         fromSignature (sigreturn mm) = Some type →
         settled w2 fut = [(Dispatch, setValue (deserialize type (msg_buffer reply)))]).
Proof.
  intros Hcall Hsent Hty Hid.
  destruct (metaCall_spec _ _ _ _ _ _ Hcall) as (-> & _ & _ & Hmo & _ & Hreg & Hheap & _).
  rewrite Hsent in Hreg, Hheap.
  destruct (onMessagePending_returns w1 reply) as [w2 Hrun]; [by rewrite Hty|].
  exists w2. split; [done|].
  apply onMessagePending_spec in Hrun as (_ & _ & _ & _ & Hreg2 & Hheap2 & _).
  rewrite Hid, Hreg, lookup_insert_eq in Hheap2.
  unfold dispatch_outcome in Hheap2. rewrite Hty in Hheap2. simpl in Hheap2.
  assert (Hout : reply_outcome w1 reply = reply_outcome w reply).
  { unfold reply_outcome. by rewrite Hmo. }
  rewrite Hout in Hheap2.
  assert (Hfut : settled w2 (length (heap w)) = [(Dispatch, reply_outcome w reply)]).
  { unfold settled. rewrite Hheap2, list_lookup_alter_eq, Hheap.
    rewrite lookup_app_l by (rewrite length_app; simpl; lia).
    by rewrite lookup_app_r, Nat.sub_diag by lia. }
  split; [done|]. split.
  - by rewrite Hreg2, Hid, Hreg, delete_insert_eq.
  - intros mm type Hmm Htype. rewrite Hfut. unfold reply_outcome. by rewrite Hmm, Htype.
Qed.

(** A message whose id is not in the registry, whatever its type: the
    dispatch leaves the registry as it is and touches no promise that
    was allocated before it. The dispatch returns for every type but
    Event. *)
Theorem unregistered_id_touches_no_call w msg :
  _promises (self w) !! to_int (msg_id msg) = None →
  (msg_type msg ≠ Type_Event → ∃ w', onMessagePending w msg = Returns w')
  ∧ ∀ w',
      onMessagePending w msg = Returns w' →
      _promises (self w') = _promises (self w)
      ∧ ∀ p, (p < length (heap w))%nat → settled w' p = settled w p.
Proof.
  intros Hk. split; [apply onMessagePending_returns|].
  intros w' Hrun.
  apply onMessagePending_spec in Hrun as (_ & _ & _ & _ & Hreg & Hheap & _).
  rewrite Hk in Hheap. simpl in Hheap. split; [by rewrite Hreg, delete_id|].
  intros p Hp. unfold settled. rewrite Hheap.
  destruct (dispatch_outcome _ _ _).
  - rewrite list_lookup_alter_ne by lia. by rewrite lookup_app_l.
  - by rewrite lookup_app_l.
Qed.

(** In a build without [NDEBUG], a call goes through exactly when the
    method is known, its signature splits in three parts at least, and
    the third part is not empty (the debug block strips its first and
    last characters); otherwise the call crashes before it registers
    anything. *)
Theorem debug_build_call_goes_through w mid m in_ :
  NDEBUG = false →
  (∃ r, metaCall w mid m in_ = Returns r)
  ↔ ∃ meth part,
      method (metaObject (self w)) m = Some meth
      ∧ signatureSplit (signature meth) !! 2%nat = Some part
      ∧ part ≠ EmptyString.
Proof.
  intros Hdebug. split.
  - intros [[w' fut] Hcall]. unfold metaCall in Hcall. rewrite metaCall_begin_eq in Hcall.
    destruct (metaCall_debug_check _ _ _) as [dbg|c] eqn:Hdbg; [|done]. clear Hcall.
    unfold metaCall_debug_check, deref, vector_at, substr in Hdbg. rewrite Hdebug in Hdbg.
    destruct (method _ _) as [meth|] eqn:Hm; [|done]. simpl in Hdbg.
    destruct (signatureSplit _ !! 2%nat) as [part|] eqn:Hpart; [|done]. simpl in Hdbg.
    exists meth, part. split; [done|]. split; [done|]. intros ->.
    cbn in Hdbg. discriminate Hdbg.
  - intros (meth & part & Hm & Hpart & Hne).
    cut (debug_check_passes w mid m in_).
    { intros Hpass. destruct (metaCall_returns _ _ _ _ Hpass) as (w' & fut & Hcall). eauto. }
    unfold debug_check_passes, metaCall_debug_check, deref, vector_at, substr.
    rewrite Hdebug, Hm. simpl. rewrite Hpart. simpl.
    destruct part as [|a part]; [done|].
    destruct (Z.of_nat (String.length (String a part)) <? 1) eqn:Hlt.
    { apply Z.ltb_lt in Hlt. simpl in Hlt. lia. }
    simpl. case_decide; eauto.
Qed.

(** The heap of promises never shrinks. *)
Lemma exec_heap_grows ops : ∀ w w',
  exec w ops = Returns w' → (length (heap w) ≤ length (heap w'))%nat.
Proof.
  induction ops as [|o ops IH]; intros w w' Hrun; simpl in Hrun.
  - injection Hrun as <-. lia.
  - run_inv. apply IH in Hrun. etrans; [|exact Hrun]. clear Hrun IH.
    destruct o; simpl in E.
    + run_inv. destruct a0 as [w1 fut].
      apply metaCall_spec in E0 as (_ & _ & _ & _ & _ & _ & Hheap & _).
      simpl. rewrite Hheap, length_app. simpl. lia.
    + apply onMessagePending_spec in E as (_ & _ & _ & _ & _ & -> & _).
      destruct (dispatch_outcome _ _ _); rewrite ?length_alter, length_app; simpl; lia.
    + apply metaEmit_inv in E as [_ ->]. lia.
    + run_inv. destruct a0 as [w1 uid]. apply connect_inv in E0 as [_ Hheap].
      simpl. rewrite Hheap. lia.
    + run_inv. destruct a0 as [w1 ok]. apply disconnect_inv in E0 as [_ Hheap].
      simpl. rewrite Hheap. lia.
    + injection E as <-. destruct (socket_becomes_inv w s) as [_ ->]. lia.
Qed.

(** Every call gets a future of its own: the future of a call is not
    the future of any call made before it, whatever happened on the
    proxy in between. *)
Theorem futures_are_distinct w mid m in_ w1 fut between w2 mid' m' in_' w3 fut' :
  metaCall w mid m in_ = Returns (w1, fut) →
  exec w1 between = Returns w2 →
  metaCall w2 mid' m' in_' = Returns (w3, fut') →
  (fut < fut')%nat ∧ (fut' < length (heap w3))%nat.
Proof.
  intros Hcall Hbetween Hcall'.
  apply metaCall_spec in Hcall as (-> & _ & _ & _ & _ & _ & Hheap & _).
  apply metaCall_spec in Hcall' as (-> & _ & _ & _ & _ & _ & Hheap' & _).
  apply exec_heap_grows in Hbetween.
  rewrite Hheap, length_app in Hbetween. rewrite Hheap', length_app. simpl in *. lia.
Qed.

(** After any history on a proxy, every promise the registry holds is
    allocated and unresolved, and no promise is held under two ids. *)
Theorem registered_promises_are_pending service mo d s history w :
  exec (proxy service mo d s) history = Returns w →
  (∀ k p, _promises (self w) !! k = Some p →
          (p < length (heap w))%nat ∧ settled w p = [])
  ∧ (∀ k k' p, _promises (self w) !! k = Some p → _promises (self w) !! k' = Some p → k = k').
Proof.
  intros Hhist.
  destruct (quiescent_exec _ _ _ (quiescent_proxy service mo d s) Hhist) as (Hreg & Hinj & _).
  split; [|done]. intros k p Hk. pose proof (Hreg _ _ Hk) as Hp. split.
  - by eapply lookup_lt_Some.
  - unfold settled. by rewrite Hp.
Qed.

(** The erase of the send-failure branch goes by id. A call draws an id
    that is already in the registry, under the promise [old] of an
    earlier call, and its send fails: the entry is erased, so that [old]
    is unresolved and out of the registry, and no later call on the proxy
    resolves it. *)
Theorem failed_duplicate_strands_earlier_call service mo d s history w mid m in_ old w' fut :
  exec (proxy service mo d s) history = Returns w →
  _promises (self w) !! to_int mid = Some old →
  metaCall w mid m in_ = Returns (w', fut) →
  transport_unavailable w (call_message w mid m in_) = true →
  _promises (self w') !! to_int mid = None
  ∧ settled w' old = []
  ∧ ∀ later w'', exec w' later = Returns w'' → settled w'' old = [].
Proof.
  intros Hhist Hold Hcall Hfail.
  destruct (quiescent_exec _ _ _ (quiescent_proxy service mo d s) Hhist) as (Hcell & Hinj & _).
  destruct (metaCall_spec _ _ _ _ _ _ Hcall) as (-> & _ & _ & _ & _ & Hreg & Hheap & _).
  rewrite Hfail in Hreg, Hheap.
  pose proof (Hcell _ _ Hold) as Hp.
  assert (Hlt : (old < length (heap w))%nat) by (by eapply lookup_lt_Some).
  assert (Hset : settled w' old = []).
  { unfold settled. by rewrite Hheap, lookup_app_l, Hp by done. }
  assert (Hun : unreachable w' old).
  { split.
    - rewrite Hheap, length_app. lia.
    - intros k. rewrite Hreg. intros [Hne Hk]%lookup_delete_Some.
      by apply Hne, (Hinj _ _ old). }
  split; [rewrite Hreg; apply lookup_delete_eq|]. split; [done|].
  intros later w'' Hlater. destruct (unreachable_exec _ _ _ _ Hun Hlater) as [_ ->]. done.
Qed.

End Calls.

Section Signals.
Context `{rt : Runtime}.

Local Ltac traces := repeat (progress (rewrite <- ?app_assoc; simpl)); done.

(** The dispatch of an Event. An unknown signal is logged at warning
    level and dropped; a signal whose signature splits in fewer than
    three parts makes the dispatch read outside the vector; a payload
    that decodes at the inner signature triggers the signal once, after
    the critical section; an empty third part or a payload that does not
    decode raises an exception that the dispatch catches: it logs one
    warning and triggers nothing. Whenever the dispatch returns, no
    promise has been resolved. *)
Theorem event_dispatch w msg :
  msg_type msg = Type_Event →
  let k := to_int (msg_id msg) in
  let taken :=
    [qiLog Debug "RemoteObject"
       [LThis; LStr " msg "; LType (msg_type msg); LStr " ";
        LNum (buffer_size (msg_buffer msg))];
     EvLock]
    ++ match _promises (self w) !! k with
       | Some _ => [EvErase k]
       | None => []
       end ++ [EvUnlock] in
  (signalBase (base (self w)) (msg_event msg) = None →
     ∃ w',
       onMessagePending w msg = Returns w'
       ∧ trace w' =
           trace w ++ taken
             ++ [qiLog Warning "remoteobject"
                   [LStr "Event message on unknown signal "; LNum (msg_event msg)];
                 qiLog Debug "remoteobject" [LNum (signalMap_size (metaObject (self w)))]])
  ∧ (∀ sig,
       signalBase (base (self w)) (msg_event msg) = Some sig →
       signatureSplit sig !! 2%nat = None →
       onMessagePending w msg = Crashes OutOfRange)
  ∧ (∀ sig part inner args,
       signalBase (base (self w)) (msg_event msg) = Some sig →
       signatureSplit sig !! 2%nat = Some part →
       substr part 1 (size_t_sub (Z.of_nat (String.length part)) 2) = Returns inner →
       fromBuffer inner (msg_buffer msg) = inr args →
       ∃ w',
         onMessagePending w msg = Returns w'
         ∧ trace w' = trace w ++ taken ++ [EvTrigger (msg_event msg) args])
  ∧ (∀ sig part,
       signalBase (base (self w)) (msg_event msg) = Some sig →
       signatureSplit sig !! 2%nat = Some part →
       (part = EmptyString
        ∨ ∃ inner what,
            substr part 1 (size_t_sub (Z.of_nat (String.length part)) 2) = Returns inner
            ∧ fromBuffer inner (msg_buffer msg) = inl what) →
       ∃ w' what,
         onMessagePending w msg = Returns w'
         ∧ trace w' =
             trace w ++ taken
               ++ [qiLog Warning "remoteobject"
                     [LStr "Deserialize error on event: "; LStr what]])
  ∧ (∀ w', onMessagePending w msg = Returns w' →
           heap w' = heap w ++ [[]] ∧ ∀ p, settled w' p = settled w p).
Proof.
  intros Hty. cbv zeta.
  assert (Hunfold : onMessagePending w msg
                    = onMessagePending_event (onMessagePending_take w msg).1.1 msg).
  { unfold onMessagePending. destruct (onMessagePending_take w msg) as [[w1 promise] found].
    unfold onMessagePending_switch. by rewrite Hty. }
  split; [|split; [|split; [|split]]].
  - rewrite Hunfold, onMessagePending_take_eq. simpl.
    unfold onMessagePending_event, try_catch, vector_at. simpl.
    intros ->. eexists. split; [done|]. simpl. traces.
  - rewrite Hunfold, onMessagePending_take_eq. simpl.
    unfold onMessagePending_event, try_catch, vector_at. simpl.
    intros sig -> ->. done.
  - rewrite Hunfold, onMessagePending_take_eq. simpl.
    unfold onMessagePending_event, try_catch, vector_at. simpl.
    intros sig part inner args -> -> Hinner Hargs. simpl. rewrite Hinner. simpl.
    rewrite Hargs. eexists. split; [done|]. simpl. traces.
  - rewrite Hunfold, onMessagePending_take_eq. simpl.
    unfold onMessagePending_event, try_catch, vector_at. simpl.
    intros sig part -> -> Hbad. simpl.
    destruct Hbad as [-> | (inner & what & Hinner & Hwhat)].
    + eexists _, _. split; [done|]. simpl. traces.
    + rewrite Hinner. simpl. rewrite Hwhat.
      eexists _, _. split; [done|]. simpl. traces.
  - intros w' Hrun.
    apply onMessagePending_spec in Hrun as (_ & _ & _ & _ & _ & Hheap & _).
    unfold dispatch_outcome in Hheap. rewrite Hty in Hheap. split; [done|].
    intros p. unfold settled. rewrite Hheap.
    destruct (decide (p < length (heap w))%nat) as [Hp|Hp]; [by rewrite lookup_app_l|].
    rewrite (lookup_ge_None_2 (heap w)) by lia.
    destruct (decide (p = length (heap w))) as [->|Hne].
    + by rewrite lookup_app_r, Nat.sub_diag by lia.
    + by rewrite lookup_ge_None_2 by (rewrite length_app; simpl; lia).
Qed.


(** [disconnect]. When the local disconnection fails, nothing is handed
    to the socket, which is not even read, and the answer is false.
    When it succeeds, one UnregisterEvent message goes to the service
    [Service_Server], with the payload (service, linkId >> 16, linkId);
    for a link id made of an event in the high bits and an index below
    2^16, the second field is that event. *)
Theorem disconnect_outcome w mid linkId :
  ((DynamicObject_disconnect (base (self w)) linkId).1 = false →
     ∃ w' line,
       disconnect w mid linkId = Returns (w', false)
       ∧ trace w' = trace w ++ [line] ∧ is_log line
       ∧ _socket (self w') = _socket (self w))
  ∧ (∀ s,
       (DynamicObject_disconnect (base (self w)) linkId).1 = true →
       _socket (self w) = Some s →
       ∃ w' msg logs,
         disconnect w mid linkId = Returns (w', true)
         ∧ trace w' = trace w ++ [EvSend msg] ++ logs ∧ Forall is_log logs
         ∧ msg_type msg = Type_Event ∧ msg_service msg = Service_Server
         ∧ msg_function msg = ServerFunction_UnregisterEvent
         ∧ msg_buffer msg =
             write_uint (write_uint (write_uint buffer_empty (_service (self w)))
                           (Z.shiftr linkId 16)) linkId
         ∧ ∀ event index,
             0 ≤ event → 0 ≤ index < 2 ^ 16 →
             linkId = Z.lor (Z.shiftl event 16) index →
             msg_buffer msg =
               write_uint (write_uint (write_uint buffer_empty (_service (self w))) event)
                 linkId).
Proof.
  unfold disconnect, socket_send.
  destruct (DynamicObject_disconnect _ _) as [ok d]. simpl. split.
  - intros ->. simpl. eexists _, _. split; [done|]. simpl. done.
  - intros s -> Hs. simpl. rewrite Hs. simpl.
    assert (Hshift : ∀ event index,
              0 ≤ event → 0 ≤ index < 2 ^ 16 →
              Z.shiftr (Z.lor (Z.shiftl event 16) index) 16 = event).
    { intros event index Hevent Hindex.
      rewrite Z.shiftr_lor, Z.shiftr_shiftl_l by lia.
      rewrite (Z.shiftr_div_pow2 index) by lia.
      rewrite Z.div_small by lia. simpl. by rewrite Z.lor_0_r. }
    destruct (negb (send s _)); simpl.
    + eexists _, _, [_]. split; [done|]. simpl. split; [traces|].
      split; [by repeat constructor|]. repeat split; try done.
      intros event index Hevent Hindex ->. by rewrite Hshift.
    + eexists _, _, []. split; [done|]. simpl. split; [traces|].
      split; [by repeat constructor|]. repeat split; try done.
      intros event index Hevent Hindex ->. by rewrite Hshift.
Qed.

End Signals.

Section Ids.
Context `{rt : Runtime}.

(** The registry is keyed by [int]; two ids below 2^32 that differ give
    keys that differ. *)
Lemma to_int_inj a b :
  0 ≤ a < 2 ^ 32 → 0 ≤ b < 2 ^ 32 → to_int a = to_int b → a = b.
Proof.
  unfold to_int. change (2 ^ 31) with 2147483648. change (2 ^ 32) with 4294967296.
  intros Ha Hb Heq.
  assert (Hmod : ∀ x, 0 ≤ x < 4294967296 →
            (x + 2147483648) mod 4294967296
            = if decide (x < 2147483648) then x + 2147483648 else x - 2147483648).
  { intros x Hx. case_decide.
    - apply Z.mod_small. lia.
    - symmetry. apply (Z.mod_unique_pos _ _ 1); lia. }
  rewrite !Hmod in Heq by done. repeat case_decide; lia.
Qed.

(** Two calls that draw different 32-bit ids and are both sent are both
    in the registry, each under its own future: the conversion of the
    unsigned id to the [int] key of the map loses nothing. *)
Theorem distinct_ids_coexist w mid m in_ w1 fut mid' m' in_' w2 fut' :
  0 ≤ mid < 2 ^ 32 → 0 ≤ mid' < 2 ^ 32 → mid ≠ mid' →
  metaCall w mid m in_ = Returns (w1, fut) →
  transport_unavailable w (call_message w mid m in_) = false →
  metaCall w1 mid' m' in_' = Returns (w2, fut') →
  transport_unavailable w1 (call_message w1 mid' m' in_') = false →
  _promises (self w2) !! to_int mid = Some fut
  ∧ _promises (self w2) !! to_int mid' = Some fut'
  ∧ fut ≠ fut'.
Proof.
  intros Hmid Hmid' Hne Hcall Hsent Hcall' Hsent'.
  assert (Hkey : to_int mid' ≠ to_int mid).
  { intros Heq. apply Hne. symmetry. by apply to_int_inj. }
  destruct (metaCall_spec _ _ _ _ _ _ Hcall) as (-> & _ & _ & _ & _ & Hreg & Hheap & _).
  destruct (metaCall_spec _ _ _ _ _ _ Hcall') as (-> & _ & _ & _ & _ & Hreg' & _ & _).
  rewrite Hsent in Hreg, Hheap. rewrite Hsent' in Hreg'.
  rewrite Hreg', Hreg. split; [|split].
  - rewrite lookup_insert_ne by done. apply lookup_insert_eq.
  - apply lookup_insert_eq.
  - rewrite Hheap, length_app. simpl. lia.
Qed.

Lemma substring_prefix s t :
  String.substring 0 (String.length s) (s +:+ t) = s.
Proof. induction s as [|a s IH]; simpl; [by destruct t|by rewrite IH]. Qed.

Lemma length_append s t :
  String.length (s +:+ t) = (String.length s + String.length t)%nat.
Proof. induction s as [|a s IH]; simpl; [done|by rewrite IH]. Qed.

Lemma substr_parenthesised s :
  Z.of_nat (String.length s) + 2 < 2 ^ 64 →
  substr ("(" +:+ s +:+ ")") 1
    (size_t_sub (Z.of_nat (String.length ("(" +:+ s +:+ ")"))) 2) = Returns s.
Proof.
  intros Hlen. unfold substr, size_t_sub.
  change ("(" +:+ s +:+ ")") with (String "(" (s +:+ ")")).
  cbn [String.length]. rewrite length_append. cbn [String.length].
  rewrite Nat2Z.inj_succ, Nat2Z.inj_add. change (Z.of_nat 1) with 1.
  destruct (_ <? 1) eqn:Hlt; [apply Z.ltb_lt in Hlt; lia|].
  replace (Z.succ (Z.of_nat (String.length s) + 1) - 2) with (Z.of_nat (String.length s))
    by lia.
  rewrite Z.mod_small by lia.
  rewrite Z.min_l by lia. rewrite Nat2Z.id.
  change (Z.to_nat 1) with 1%nat. cbn [String.substring].
  by rewrite substring_prefix.
Qed.

Lemma substr_empty :
  substr EmptyString 1 (size_t_sub (Z.of_nat (String.length EmptyString)) 2)
  = Crashes (Exception
               "basic_string::substr: __pos (which is 1) > this->size() (which is 0)").
Proof. reflexivity. Qed.

(** "Remove extra tuple layer", lines 106-107 and 139-141. In a build
    without [NDEBUG], a call of a method whose signature has the third
    part [(s)] returns; before it enters the critical section it logs
    the "call signature mismatch" line exactly when [s] is not the
    signature of the buffer of the arguments, then its debug line. A
    call of a method whose third part is empty ends in the
    [std::out_of_range] of [substr], which nothing catches. The dispatch
    of an Event on a signal whose third part is [(s)] decodes the
    payload at [s]: the last thing it does is to trigger the signal with
    the arguments, or to log the text of the exception of the decoder;
    on a signal whose third part is empty it catches the exception of
    [substr] and logs its text. *)
Theorem tuple_layer_of_signatures w mid m in_ meth msg sig s :
  Z.of_nat (String.length s) + 2 < 2 ^ 64 →
  (NDEBUG = false →
   method (metaObject (self w)) m = Some meth →
   (signatureSplit (signature meth) !! 2%nat = Some ("(" +:+ s +:+ ")") →
    ∃ w' fut rest,
      metaCall w mid m in_ = Returns (w', fut)
      ∧ trace w' =
          trace w
            ++ (if decide (s ≠ buffer_signature (toBuffer in_))
                then [qiLog Error "remoteobject"
                        [LStr "call signature mismatch "; LStr s; LStr " ";
                         LStr (buffer_signature (toBuffer in_))]]
                else [])
            ++ [qiLog Debug "remoteobject"
                  [LThis; LStr " metacall "; LNum (_service (self w)); LStr " ";
                   LNum m; LStr " "; LNum mid]]
            ++ [EvLock] ++ rest)
   ∧ (signatureSplit (signature meth) !! 2%nat = Some EmptyString →
      metaCall w mid m in_
      = Crashes (Exception
                   "basic_string::substr: __pos (which is 1) > this->size() (which is 0)")))
  ∧ (msg_type msg = Type_Event →
     signalBase (base (self w)) (msg_event msg) = Some sig →
     (signatureSplit sig !! 2%nat = Some ("(" +:+ s +:+ ")") →
      ∃ w',
        onMessagePending w msg = Returns w'
        ∧ last (trace w')
          = Some match fromBuffer s (msg_buffer msg) with
                 | inr args => EvTrigger (msg_event msg) args
                 | inl what =>
                     qiLog Warning "remoteobject"
                       [LStr "Deserialize error on event: "; LStr what]
                 end)
     ∧ (signatureSplit sig !! 2%nat = Some EmptyString →
        ∃ w',
          onMessagePending w msg = Returns w'
          ∧ last (trace w')
            = Some (qiLog Warning "remoteobject"
                      [LStr "Deserialize error on event: ";
                       LStr "basic_string::substr: __pos (which is 1) > this->size() (which is 0)"]))).
Proof.
  intros Hlen. split.
  - intros Hdebug Hmeth.
    assert (Hcheck : ∀ part,
              signatureSplit (signature meth) !! 2%nat = Some part →
              metaCall_debug_check (metaObject (self w)) m (call_message w mid m in_)
              = inner ← substr part 1 (size_t_sub (Z.of_nat (String.length part)) 2);
                if decide (inner ≠ buffer_signature (toBuffer in_))
                then Returns [qiLog Error "remoteobject"
                                [LStr "call signature mismatch "; LStr inner; LStr " ";
                                 LStr (buffer_signature (toBuffer in_))]]
                else Returns []).
    { intros part Hpart. unfold metaCall_debug_check, deref, vector_at.
      rewrite Hdebug, Hmeth. simpl. by rewrite Hpart. }
    split; intros Hpart.
    + unfold metaCall. rewrite metaCall_begin_eq, (Hcheck _ Hpart).
      rewrite (substr_parenthesised s Hlen). cbn [mbind run_bind].
      case_decide; cbn [mbind run_bind];
        rewrite metaCall_send_eq, metaCall_insert_eq;
        destruct (transport_unavailable _ _); eexists _, _, _;
        (split; [reflexivity|]); simpl;
        repeat (progress (rewrite <- ?app_assoc; simpl)); reflexivity.
    + apply metaCall_crashes. by rewrite (Hcheck _ Hpart), substr_empty.
  - intros Hty Hsig.
    assert (Hunfold : onMessagePending w msg
                      = onMessagePending_event (onMessagePending_take w msg).1.1 msg).
    { unfold onMessagePending.
      destruct (onMessagePending_take w msg) as [[w1 promise] found].
      unfold onMessagePending_switch. by rewrite Hty. }
    rewrite Hunfold, onMessagePending_take_eq. simpl.
    unfold onMessagePending_event, try_catch, vector_at. simpl. rewrite Hsig.
    split; intros ->; cbn [mbind run_bind].
    + rewrite (substr_parenthesised s Hlen). cbn [mbind run_bind].
      destruct (fromBuffer s (msg_buffer msg)); eexists; (split; [reflexivity|]);
        simpl; rewrite ?app_assoc; apply last_snoc.
    + rewrite substr_empty. eexists. split; [reflexivity|].
      simpl. rewrite ?app_assoc. apply last_snoc.
Qed.

(** A Reply that comes in before [send] has returned finds its slot.
    The call has inserted its promise and has not yet called [send]; the
    event loop dispatches a Reply that carries the id of the call, then
    the send goes through: the promise holds the one resolution of the
    dispatch, the registry no longer holds the id, and both threads
    have returned. *)
Theorem reply_before_send_returns_finds_slot w mid m in_ reply :
  debug_check_passes w mid m in_ →
  transport_unavailable w (call_message w mid m in_) = false →
  msg_type reply = Type_Reply →
  to_int (msg_id reply) = to_int mid →
  ∃ w',
    interleave (w, [Call_begin mid m in_; Dispatch_take reply])
      [Advance 0; Advance 0; Advance 1; Advance 1; Advance 0]%nat
    = Returns (w', [Call_return (length (heap w)); Dispatch_return])
    ∧ settled w' (length (heap w)) = [(Dispatch, reply_outcome w reply)]
    ∧ _promises (self w') !! to_int mid = None.
Proof.
  intros [dbg Hdbg] Hsent Hty Hid.
  cbn [interleave step fst snd lookup list_lookup thread_step mbind run_bind].
  rewrite metaCall_begin_eq, Hdbg.
  cbn [mbind run_bind insert list_insert lookup list_lookup fst snd thread_step].
  rewrite onMessagePending_take_eq.
  cbn [mbind run_bind insert list_insert lookup list_lookup fst snd thread_step].
  rewrite metaCall_insert_eq. cbn [msg_id call_message self _promises heap].
  rewrite Hid, lookup_insert_eq.
  destruct (onMessagePending_switch_returns
              {| self := {| _socket := _socket (self w); _service := _service (self w);
                            _promises := delete (to_int mid)
                                           (<[to_int mid := length (heap w)]>
                                              (_promises (self w)));
                            metaObject := metaObject (self w); base := base (self w) |};
                 heap := (heap w ++ [[]]) ++ [[]];
                 trace := (((trace w ++ dbg)
                    ++ [qiLog Debug "remoteobject"
                          [LThis; LStr " metacall "; LNum (_service (self w)); LStr " ";
                           LNum m; LStr " "; LNum mid]])
                    ++ [EvLock]
                    ++ (if decide (is_Some (_promises (self w) !! to_int mid))
                        then [duplicate_id_log mid] else [])
                    ++ [EvInsert (to_int mid) (length (heap w)); EvUnlock])
                    ++ [qiLog Debug "RemoteObject"
                          [LThis; LStr " msg "; LType (msg_type reply); LStr " ";
                           LNum (buffer_size (msg_buffer reply))]; EvLock]
                    ++ [EvErase (to_int mid)] ++ [EvUnlock] |}
              reply (length (heap w)) true) as [w3 Hsw]; [by rewrite Hty|].
  simpl. simpl in Hsw. rewrite Hsw. simpl.
  rewrite metaCall_send_eq.
  apply onMessagePending_switch_inv in Hsw as (Hself & Hheap & _).
  rewrite (transport_unavailable_socket w) by (by rewrite Hself).
  rewrite Hsent. eexists. split; [done|]. simpl. rewrite Hself. simpl.
  split; [|apply lookup_delete_eq].
  unfold settled. simpl. rewrite Hheap. unfold dispatch_outcome. rewrite Hty. simpl.
  rewrite list_lookup_alter_eq, lookup_app_l by (rewrite length_app; simpl; lia).
  rewrite lookup_app_r, Nat.sub_diag by lia. done.
Qed.

End Ids.

(** * Properties of the constructor, of setTransportSocket and of close *)

Section LifecycleProofs.
Context `{rt : Runtime}.

Lemma last_connect_app l1 l2 :
  last_connect (l1 ++ l2)
  = match last_connect l2 with
    | Some x => Some x
    | None => last_connect l1
    end.
Proof.
  induction l1 as [|c l1 IH]; simpl; [by destruct (last_connect l2)|].
  rewrite IH. by destruct (last_connect l2), (last_connect l1).
Qed.

Lemma detaches_last_attached_app seen r1 r2 :
  detaches_last_attached seen (r1 ++ r2)
  ↔ detaches_last_attached seen r1 ∧ detaches_last_attached (seen ++ r1) r2.
Proof.
  revert seen. induction r1 as [|c r1 IH]; intros seen; simpl.
  - rewrite app_nil_r. tauto.
  - destruct c; rewrite IH, <- app_assoc; simpl; tauto.
Qed.

Lemma lifecycle_op_step a o :
  remembers_dispatcher a →
  ∃ new,
    dispatchers (lifecycle_op a o) = dispatchers a ++ new
    ∧ detaches_last_attached (dispatchers a) new
    ∧ remembers_dispatcher (lifecycle_op a o)
    ∧ _service (self (object (lifecycle_op a o))) = _service (self (object a))
    ∧ _promises (self (object (lifecycle_op a o))) = _promises (self (object a))
    ∧ heap (object (lifecycle_op a o)) = heap (object a)
    ∧ trace (object (lifecycle_op a o)) = trace (object a).
Proof.
  intros Hrem. unfold remembers_dispatcher in *.
  destruct o as [socket link|]; simpl.
  - unfold setTransportSocket.
    destruct (_socket (self (object a))) as [old|] eqn:Hold; destruct socket as [s|]; simpl.
    + eexists. split; [done|]. simpl. rewrite (Hrem old) by done.
      repeat split; try done. intros ? [= <-].
      rewrite !last_connect_app. done.
    + eexists. split; [done|]. simpl. rewrite (Hrem old) by done. repeat split; done.
    + eexists. split; [done|]. simpl. repeat split; try done.
      intros ? [= <-]. rewrite !last_connect_app. done.
    + exists []. rewrite app_nil_r. repeat split; done.
  - unfold close. destruct (_socket (self (object a))) as [s|] eqn:Hs; simpl.
    + eexists. split; [done|]. simpl. rewrite (Hrem s) by done.
      repeat split; try done. intros s' Hs'. rewrite last_connect_app. simpl.
      rewrite Hs in Hs'. injection Hs' as <-. by apply Hrem.
    + exists []. rewrite app_nil_r, Hs. repeat split; try done.
Qed.

Lemma lifecycle_steps ops : ∀ a,
  remembers_dispatcher a →
  ∃ rest,
    dispatchers (lifecycle a ops) = dispatchers a ++ rest
    ∧ detaches_last_attached (dispatchers a) rest
    ∧ _promises (self (object (lifecycle a ops))) = _promises (self (object a))
    ∧ heap (object (lifecycle a ops)) = heap (object a)
    ∧ trace (object (lifecycle a ops)) = trace (object a).
Proof.
  induction ops as [|o ops IH]; intros a Hrem; simpl.
  - exists []. by rewrite app_nil_r.
  - destruct (lifecycle_op_step a o Hrem)
      as (new & Hnew & Hpaired & Hrem' & _ & Hreg & Hheap & Htrace).
    destruct (IH _ Hrem') as (rest & Hrest & Hpaired' & Hreg' & Hheap' & Htrace').
    exists (new ++ rest). unfold lifecycle in *.
    rewrite Hrest, Hnew, <- app_assoc. split; [done|].
    split; [apply detaches_last_attached_app; by rewrite <- Hnew|].
    by rewrite Hreg', Hheap', Htrace'.
Qed.

(** The constructor with a socket. The member [_socket] is initialised
    with the socket before the body calls [setTransportSocket], which
    finds it set: the first thing the proxy asks of its socket is to
    disconnect the dispatcher 0 of its service, which it has not
    attached; then it attaches its own and keeps the link. With a null
    socket it asks nothing. *)
Theorem constructor_detaches_link_zero service mo d link :
  (∀ s,
      dispatchers (RemoteObject_new service mo d (Some s) link)
      = [messagePendingDisconnect s service 0; messagePendingConnect s service link]
      ∧ _linkMessageDispatcher (RemoteObject_new service mo d (Some s) link) = link
      ∧ object (RemoteObject_new service mo d (Some s) link) = proxy service mo d (Some s))
  ∧ dispatchers (RemoteObject_new service mo d None link) = []
  ∧ _linkMessageDispatcher (RemoteObject_new service mo d None link) = 0.
Proof. done. Qed.

(** After the constructor, whatever the sequence of [setTransportSocket]
    and [close]: every disconnect the proxy asks for names the socket,
    the service and the link of the dispatcher it attached last. *)
Theorem proxy_detaches_what_it_attached service mo d socket link ops :
  let built := RemoteObject_new service mo d socket link in
  ∃ rest,
    dispatchers (lifecycle built ops) = dispatchers built ++ rest
    ∧ detaches_last_attached (dispatchers built) rest.
Proof.
  cbv zeta.
  assert (Hrem : remembers_dispatcher (RemoteObject_new service mo d socket link)).
  { intros s Hs. destruct socket as [s'|]; [|done]. simpl in *. by injection Hs as <-. }
  destruct (lifecycle_steps ops _ Hrem) as (rest & Hrest & Hpaired & _). eauto.
Qed.

Lemma lifecycle_op_frame a o :
  _promises (self (object (lifecycle_op a o))) = _promises (self (object a))
  ∧ heap (object (lifecycle_op a o)) = heap (object a)
  ∧ trace (object (lifecycle_op a o)) = trace (object a).
Proof.
  destruct o as [socket link|]; simpl.
  - unfold setTransportSocket. by destruct socket.
  - unfold close. by destruct (_socket (self (object a))).
Qed.

(** No sequence of [setTransportSocket] and [close] resolves a promise,
    changes the registry or logs: the calls that are pending stay
    pending and registered; and [close] leaves the socket in place, so
    that a call made after it is registered and sent as before. *)
Theorem lifecycle_leaves_calls_alone a ops :
  _promises (self (object (lifecycle a ops))) = _promises (self (object a))
  ∧ heap (object (lifecycle a ops)) = heap (object a)
  ∧ trace (object (lifecycle a ops)) = trace (object a)
  ∧ (∀ p, settled (object (lifecycle a ops)) p = settled (object a) p)
  ∧ (∀ mid m in_, metaCall (object (close a)) mid m in_ = metaCall (object a) mid m in_).
Proof.
  assert (Hframe : _promises (self (object (lifecycle a ops))) = _promises (self (object a))
                   ∧ heap (object (lifecycle a ops)) = heap (object a)
                   ∧ trace (object (lifecycle a ops)) = trace (object a)).
  { revert a. induction ops as [|o ops IH]; intros a; [done|]. simpl.
    destruct (IH (lifecycle_op a o)) as (-> & -> & ->). apply lifecycle_op_frame. }
  destruct Hframe as (Hreg & Hheap & Htrace).
  split; [done|]. split; [done|]. split; [done|]. split.
  - intros p. unfold settled. by rewrite Hheap.
  - intros mid m in_. unfold close. by destruct (_socket (self (object a))).
Qed.

End LifecycleProofs.

(** * Further properties of the transport server *)

Section ServerSequencesProofs.
Context `{pf : Server.Platform}.
Import Server.

Lemma accept_all_spec fds : ∀ p d listener,
  tsi p = Some d →
  accept_all p fds listener
  = Returns {| connection := connection p
                 ++ ((λ fd, {| fd := fd; event_base := evconnlistener_get_base listener |})
                       <$> fds);
               tsi := Some d;
               trace := trace p ++ ((λ _, EvNewConnection d) <$> fds) |}.
Proof.
  induction fds as [|fd fds IH]; intros p d listener Hd; simpl.
  - rewrite !app_nil_r. destruct p; simpl in *. by subst.
  - unfold accept at 1. simpl. rewrite Hd. simpl.
    rewrite (IH _ d listener) by done. simpl. by rewrite <- !app_assoc.
Qed.

Lemma drain_spec extra q : ∀ d t,
  drain (length q + extra) {| connection := q; tsi := d; trace := t |}
  = ({| connection := []; tsi := d; trace := t |}, (Some <$> q) ++ replicate extra None).
Proof.
  induction q as [|front q IH]; intros d t; simpl.
  - induction extra as [|extra IHe]; simpl; [done|].
    destruct (drain extra _) as [p rest] eqn:Hdrain.
    injection IHe as -> ->. done.
  - by rewrite IH.
Qed.

(** The pending-connection queue is first in, first out. On a server
    with a delegate and an empty queue, the accept callback runs for the
    descriptors [fds]: the delegate is notified once for each, in order,
    and nothing else is recorded; [nextPendingConnection] then gives the
    sockets of [fds] in the order of acceptance, each once, and a null
    pointer from then on, leaving the queue empty. *)
Theorem accepted_connections_come_out_in_order p d fds listener extra :
  tsi p = Some d → connection p = [] →
  ∃ p',
    accept_all p fds listener = Returns p'
    ∧ trace p' = trace p ++ ((λ _, EvNewConnection d) <$> fds)
    ∧ drain (length fds + extra) p'
      = ({| connection := []; tsi := Some d; trace := trace p' |},
         ((λ fd, Some {| fd := fd; event_base := evconnlistener_get_base listener |}) <$> fds)
           ++ replicate extra None).
Proof.
  intros Hd Hq. rewrite (accept_all_spec fds p d listener Hd), Hq. simpl.
  eexists. split; [done|]. split; [done|]. simpl.
  pose proof (drain_spec extra
                ((λ fd, {| fd := fd; event_base := evconnlistener_get_base listener |}) <$> fds)
                (Some d) (trace p ++ ((λ _, EvNewConnection d) <$> fds))) as Hdrain.
  rewrite length_fmap in Hdrain. rewrite Hdrain. by rewrite <- list_fmap_compose.
Qed.

(** [start] keeps nothing of what it did: it leaves the queue and the
    delegate alone, and a second [start] on the same url asks for a bind
    again and gives the same answer as the first; with a host that
    [inet_addr] rejects no bind is asked for. *)
Theorem start_keeps_no_state p base url :
  let first := start p base url in
  let second := start first.1 base url in
  connection second.1 = connection p ∧ tsi second.1 = tsi p
  ∧ second.2 = first.2
  ∧ (inet_addr (host url) = INADDR_NONE →
     first.2 = false
     ∧ trace first.1
       = trace p ++ [EvLog Error "qimessaging.transportserver" "Provided IP is not valid"])
  ∧ (inet_addr (host url) ≠ INADDR_NONE →
     first.2 = true
     ∧ ∃ bound bound',
         trace second.1
         = trace p
             ++ [EvBind base AF_INET (htons (port url mod 2 ^ 16)) (inet_addr (host url)) bound;
                 EvBind base AF_INET (htons (port url mod 2 ^ 16)) (inet_addr (host url)) bound']).
Proof.
  cbv zeta. unfold start. simpl. case_decide as Haddr; simpl.
  - split; [done|]. split; [done|]. split; [done|]. split; [done|].
    intros Hne. by destruct Hne.
  - split; [done|]. split; [done|]. split; [done|]. split.
    + intros Hnone. by destruct Haddr.
    + intros _. split; [done|]. eexists _, _. by rewrite <- app_assoc.
Qed.

End ServerSequencesProofs.

(** * Properties of GenericValue::convert *)

Section ConversionProofs.
Import Conversion.
Context `{ty : Types}.
Variable clone : GenericValue → GenericValue.

(** Conversion to the GenericValue type wraps whatever it is given, a
    value without a type and a metavalue included: the source is not
    read, the result is a metavalue of the target type around the clone
    of the source. Conversion of a well-typed value to any other type
    succeeds and gives a plain value whose type has the [info()] of the
    target. *)
Theorem convert_gives_target_type g targetType :
  (is_metavalue targetType = true →
     convert clone g targetType = Value (Meta targetType (clone g)))
  ∧ (is_metavalue targetType = false → well_typed g →
     ∃ type value,
       convert clone g targetType = Value (Plain type value)
       ∧ info type = info targetType
       ∧ is_metavalue type = false).
Proof.
  split.
  - intros Hmeta. destruct g; simpl; by rewrite Hmeta.
  - intros Hmeta. induction g as [|type value|type metaval IH]; simpl.
    + done.
    + intros Hplain. rewrite Hmeta, Hplain. case_decide as Hinfo.
      * eexists _, _. split; [done|]. by split.
      * eexists _, _. split; [done|]. by split.
    + intros [Hm Hwell]. rewrite Hmeta, Hm.
      destruct (IH Hwell) as (type' & value' & Hconv & Hinfo).
      exists type', value'. split; [|done].
      destruct metaval; simpl in *; by rewrite ?Hmeta in *.
Qed.

(** Metavalue layers are transparent to a conversion to a type that is
    not the GenericValue type: the result is that of the conversion of
    the plain value under them, a clone when that value already has the
    [info()] of the target, a passage through [toValue] and [fromValue]
    otherwise. Converting a value to the GenericValue type and the
    result to another type is converting the clone of the value. *)
Theorem convert_through_metavalues g targetType :
  is_metavalue targetType = false →
  (well_typed g →
     ∃ type value,
       innermost g = Plain type value
       ∧ convert clone g targetType
         = if decide (info targetType = info type)
           then Value (Plain type (Type_clone type value))
           else Value (Plain targetType (fromValue targetType (toValue type value))))
  ∧ (∀ wrapper wrapped,
       is_metavalue wrapper = true →
       convert clone g wrapper = Value wrapped →
       convert clone wrapped targetType = convert clone (clone g) targetType).
Proof.
  intros Hmeta. split.
  - induction g as [|type value|type metaval IH]; simpl.
    + done.
    + intros Hplain. exists type, value. split; [done|]. by rewrite Hmeta, Hplain.
    + intros [Hm Hwell]. destruct (IH Hwell) as (type' & value' & Hin & Hconv).
      exists type', value'. split; [done|]. rewrite Hmeta, Hm.
      destruct metaval; simpl in *; by rewrite ?Hmeta in *.
  - intros wrapper wrapped Hwrap Hconv.
    assert (Hwrapped : wrapped = Meta wrapper (clone g)).
    { destruct g; simpl in Hconv; rewrite Hwrap in Hconv; by injection Hconv as <-. }
    subst wrapped. simpl. rewrite Hmeta, Hwrap.
    destruct (clone g); simpl; by rewrite ?Hmeta.
Qed.

End ConversionProofs.

(** * A subscription from connect to disconnect *)

Section Subscriptions.
Context `{rt : Runtime}.

(** A signal is connected, then disconnected under the link id that
    [connect] returned. When the link id carries the event in its bits
    above the sixteenth and the local disconnection succeeds, the payload
    of the UnregisterEvent message is the payload of the RegisterEvent
    message, (service, event, link id); nothing else goes to the socket
    in between, and the local object is the one [DynamicObject] leaves
    after the connection and the disconnection. *)
Theorem disconnect_unregisters_what_connect_registered w s mid mid' event sub :
  _socket (self w) = Some s →
  Z.shiftr (DynamicObject_connect (base (self w)) event sub).1 16 = event →
  (DynamicObject_disconnect (DynamicObject_connect (base (self w)) event sub).2
     (DynamicObject_connect (base (self w)) event sub).1).1 = true →
  ∃ w1 w2 registered unregistered logs logs',
    connect w mid event sub
    = Returns (w1, (DynamicObject_connect (base (self w)) event sub).1)
    ∧ disconnect w1 mid' (DynamicObject_connect (base (self w)) event sub).1
      = Returns (w2, true)
    ∧ trace w2
      = trace w ++ [EvSend registered] ++ logs ++ [EvSend unregistered] ++ logs'
    ∧ Forall is_log logs ∧ Forall is_log logs'
    ∧ msg_service registered = Service_Server
    ∧ msg_service unregistered = Service_Server
    ∧ msg_function registered = ServerFunction_RegisterEvent
    ∧ msg_function unregistered = ServerFunction_UnregisterEvent
    ∧ msg_buffer registered
      = write_uint (write_uint (write_uint buffer_empty (_service (self w))) event)
          (DynamicObject_connect (base (self w)) event sub).1
    ∧ msg_buffer unregistered = msg_buffer registered
    ∧ base (self w2)
      = (DynamicObject_disconnect (DynamicObject_connect (base (self w)) event sub).2
           (DynamicObject_connect (base (self w)) event sub).1).2
    ∧ _promises (self w2) = _promises (self w) ∧ heap w2 = heap w.
Proof.
  intros Hs Hevent Hok. unfold connect, socket_send.
  destruct (DynamicObject_connect _ _ _) as [uid d1] eqn:Hconnect. simpl in *.
  rewrite Hs. simpl.
  set (registered := setFunction _ _).
  set (w1 := emit _ _).
  exists w1. unfold disconnect, socket_send.
  assert (Hbase : base (self w1) = d1) by (subst w1; by destruct (negb _)).
  assert (Hsock : _socket (self w1) = Some s) by (subst w1; by destruct (negb _)).
  assert (Hserv : _service (self w1) = _service (self w)) by (subst w1; by destruct (negb _)).
  rewrite Hbase.
  destruct (DynamicObject_disconnect d1 uid) as [ok d2] eqn:Hdisconnect. simpl in *.
  subst ok. simpl. rewrite Hsock. simpl.
  set (unregistered := setFunction _ _).
  eexists _, registered, unregistered,
    ((if negb (send s registered)
      then [qiLog Error "remoteobject" [LStr "error while registering event"]]
      else [])
     ++ [qiLog Debug "remoteobject"
           [LStr "connect() to "; LNum event; LStr " gave "; LNum uid]]),
    (if negb (send s unregistered)
     then [qiLog Error "remoteobject" [LStr "error while disconnecting signal"]]
     else []).
  split; [done|]. split; [done|].
  split.
  { subst w1. simpl.
    destruct (negb (send s registered)), (negb (send s unregistered)); simpl;
      repeat (progress (rewrite <- ?app_assoc; simpl)); reflexivity. }
  split; [destruct (negb (send s registered)); by repeat constructor|].
  split; [destruct (negb (send s unregistered)); by repeat constructor|].
  split; [done|]. split; [done|]. split; [done|]. split; [done|].
  split; [done|].
  split; [subst registered unregistered; simpl; by rewrite Hserv, Hevent|].
  split; [by destruct (negb (send s unregistered))|].
  subst w1. split; destruct (negb (send s registered)), (negb (send s unregistered)); done.
Qed.

End Subscriptions.

(** * Runs of the further properties *)

Section FurtherRuns.
Import Fixture.
Local Existing Instance release.

(** The call 1 is sent and the Reply 42 comes in. *)
Lemma reply_resolves_call_witness :
  metaCall idle 1 3 hello = Returns (first_call.1, first_call.2)
  ∧ transport_unavailable idle (call_message idle 1 3 hello) = false
  ∧ ∃ w2,
      onMessagePending first_call.1 (reply 1 answer) = Returns w2
      ∧ settled w2 first_call.2 = [(Dispatch, setValue ["42"]%string)]
      ∧ _promises (self w2) = delete (to_int 1) (_promises (self idle)).
Proof.
  assert (Hcall : metaCall idle 1 3 hello = Returns (first_call.1, first_call.2)).
  { apply (returned_pair (metaCall idle 1 3 hello) (idle, 0%nat)). vm_compute. reflexivity. }
  assert (Hsent : transport_unavailable idle (call_message idle 1 3 hello) = false)
    by (vm_compute; reflexivity).
  split; [exact Hcall|]. split; [exact Hsent|].
  destruct (reply_resolves_call (rt := release) idle 1 3 hello first_call.1 first_call.2
              (reply 1 answer) Hcall Hsent eq_refl eq_refl) as (w2 & Hrun & _ & Hreg & Hvalue).
  exists w2. split; [exact Hrun|]. split; [|exact Hreg].
  exact (Hvalue _ "i"%string eq_refl eq_refl).
Defined.

(** A Reply for the id 5 while the call 1 is pending. *)
Lemma unregistered_id_touches_no_call_witness :
  _promises (self called) !! to_int (msg_id (reply 5 answer)) = None
  ∧ ∃ w',
      onMessagePending called (reply 5 answer) = Returns w'
      ∧ _promises (self w') = _promises (self called)
      ∧ settled w' 0 = settled called 0.
Proof.
  assert (Hk : _promises (self called) !! to_int (msg_id (reply 5 answer)) = None)
    by (vm_compute; reflexivity).
  assert (Hlt : (0 < length (heap called))%nat) by (vm_compute; lia).
  destruct (unregistered_id_touches_no_call (rt := release) called (reply 5 answer) Hk)
    as [Hreturns Hkeeps].
  destruct Hreturns as [w' Hrun]; [discriminate|].
  destruct (Hkeeps w' Hrun) as [Hreg Hheap].
  split; [exact Hk|]. exists w'. split; [exact Hrun|]. split; [exact Hreg|].
  exact (Hheap 0%nat Hlt).
Defined.

(** The method 3 is known and its signature is [ping::(s)]. *)
Lemma debug_build_call_goes_through_witness :
  @NDEBUG debug = false
  ∧ ∃ r, @metaCall debug debug_no_socket 1 3 hello = Returns r.
Proof.
  split; [reflexivity|].
  apply (debug_build_call_goes_through (rt := debug) debug_no_socket 1 3 hello eq_refl).
  eexists _, _. split; [reflexivity|]. split; [reflexivity|]. discriminate.
Defined.

(** The call 2 right after the call 1. *)
Lemma futures_are_distinct_witness :
  metaCall idle 1 3 hello = Returns (first_call.1, first_call.2)
  ∧ exec first_call.1 [] = Returns first_call.1
  ∧ metaCall first_call.1 2 3 hello = Returns (next_call.1, next_call.2)
  ∧ (first_call.2 < next_call.2)%nat.
Proof.
  assert (Hcall : metaCall idle 1 3 hello = Returns (first_call.1, first_call.2)).
  { apply (returned_pair (metaCall idle 1 3 hello) (idle, 0%nat)). vm_compute. reflexivity. }
  assert (Hnone : exec first_call.1 [] = Returns first_call.1) by reflexivity.
  assert (Hnext : metaCall first_call.1 2 3 hello = Returns (next_call.1, next_call.2)).
  { apply (returned_pair (metaCall first_call.1 2 3 hello) (idle, 0%nat)).
    vm_compute. reflexivity. }
  split; [exact Hcall|]. split; [exact Hnone|]. split; [exact Hnext|].
  exact (proj1 (futures_are_distinct (rt := release) idle 1 3 hello first_call.1 first_call.2
                  [] first_call.1 2 3 hello next_call.1 next_call.2 Hcall Hnone Hnext)).
Defined.

(** The proxy after the call 1. *)
Lemma registered_promises_are_pending_witness :
  exec idle [OpMetaCall 1 3 hello] = Returns called
  ∧ ∀ k p, _promises (self called) !! k = Some p →
           (p < length (heap called))%nat ∧ settled called p = [].
Proof.
  assert (Hhist : exec idle [OpMetaCall 1 3 hello] = Returns called).
  { apply (returned_spec (exec idle [OpMetaCall 1 3 hello]) idle). vm_compute. reflexivity. }
  split; [exact Hhist|].
  exact (proj1 (registered_promises_are_pending (rt := release) 7 meta no_signals
                  (Some connected) [OpMetaCall 1 3 hello] called Hhist)).
Defined.

(** The call 1 is pending, the socket starts to refuse, and a second
    call draws the id 1. *)
Lemma failed_duplicate_strands_earlier_call_witness :
  exec idle refused_history = Returns called_then_refused
  ∧ _promises (self called_then_refused) !! to_int 1 = Some 0%nat
  ∧ metaCall called_then_refused 1 3 hello = Returns (failed_duplicate.1, failed_duplicate.2)
  ∧ transport_unavailable called_then_refused (call_message called_then_refused 1 3 hello)
    = true
  ∧ _promises (self failed_duplicate.1) !! to_int 1 = None
  ∧ settled failed_duplicate.1 0 = [].
Proof.
  assert (Hhist : exec idle refused_history = Returns called_then_refused).
  { apply (returned_spec (exec idle refused_history) idle). vm_compute. reflexivity. }
  assert (Hold : _promises (self called_then_refused) !! to_int 1 = Some 0%nat)
    by (vm_compute; reflexivity).
  assert (Hcall : metaCall called_then_refused 1 3 hello
                  = Returns (failed_duplicate.1, failed_duplicate.2)).
  { apply (returned_pair (metaCall called_then_refused 1 3 hello) (idle, 0%nat)).
    vm_compute. reflexivity. }
  assert (Hfail : transport_unavailable called_then_refused
                    (call_message called_then_refused 1 3 hello) = true)
    by (vm_compute; reflexivity).
  destruct (failed_duplicate_strands_earlier_call (rt := release) 7 meta no_signals
              (Some connected) refused_history called_then_refused 1 3 hello 0%nat
              failed_duplicate.1 failed_duplicate.2 Hhist Hold Hcall Hfail)
    as (Hgone & Hpending & _).
  split; [exact Hhist|]. split; [exact Hold|]. split; [exact Hcall|].
  split; [exact Hfail|]. split; [exact Hgone|]. exact Hpending.
Defined.

(** The Event of the signal 9 with a payload at its signature. *)
Lemma event_dispatch_witness :
  msg_type (event 1 hello) = Type_Event
  ∧ ∃ w',
      onMessagePending listening (event 1 hello) = Returns w'
      ∧ last (trace w') = Some (EvTrigger 9 hello).
Proof.
  split; [reflexivity|].
  assert (Hsig : signalBase (base (self listening)) (msg_event (event 1 hello))
                 = Some "tick::(s)"%string) by (vm_compute; reflexivity).
  assert (Hpart : signatureSplit "tick::(s)" !! 2%nat = Some "(s)"%string)
    by (vm_compute; reflexivity).
  assert (Hinner : substr "(s)" 1 (size_t_sub (Z.of_nat (String.length "(s)")) 2)
                   = Returns "s"%string) by (vm_compute; reflexivity).
  assert (Hargs : fromBuffer "s" (msg_buffer (event 1 hello)) = inr hello)
    by (vm_compute; reflexivity).
  pose proof (event_dispatch (rt := release) listening (event 1 hello) eq_refl) as Hdispatch.
  cbv zeta in Hdispatch. destruct Hdispatch as (_ & _ & Htrigger & _).
  destruct (Htrigger _ _ _ _ Hsig Hpart Hinner Hargs) as (w' & Hrun & Htrace).
  exists w'. split; [exact Hrun|].
  rewrite Htrace, !app_assoc. apply last_snoc.
Defined.


(** The link 9 << 16 is disconnected. *)
Lemma disconnect_outcome_witness :
  (DynamicObject_disconnect (base (self listening)) 589824).1 = true
  ∧ ∃ w' msg,
      disconnect listening 2 589824 = Returns (w', true)
      ∧ msg_buffer msg = write_uint (write_uint (write_uint buffer_empty 7) 9) 589824.
Proof.
  assert (Hok : (DynamicObject_disconnect (base (self listening)) 589824).1 = true)
    by (vm_compute; reflexivity).
  split; [exact Hok|].
  destruct (disconnect_outcome (rt := release) listening 2 589824) as [_ Hsent].
  destruct (Hsent connected Hok eq_refl) as (w' & msg & logs & Hrun & _ & _ & _ & _ & _ & _ & Hevent).
  exists w', msg. split; [exact Hrun|].
  apply (Hevent 9 0); [lia|lia|reflexivity].
Defined.

(** The calls 1 and 2. *)
Lemma distinct_ids_coexist_witness :
  metaCall idle 1 3 hello = Returns (first_call.1, first_call.2)
  ∧ metaCall first_call.1 2 3 hello = Returns (next_call.1, next_call.2)
  ∧ _promises (self next_call.1) !! to_int 1 = Some first_call.2
  ∧ _promises (self next_call.1) !! to_int 2 = Some next_call.2.
Proof.
  assert (Hcall : metaCall idle 1 3 hello = Returns (first_call.1, first_call.2)).
  { apply (returned_pair (metaCall idle 1 3 hello) (idle, 0%nat)). vm_compute. reflexivity. }
  assert (Hsent : transport_unavailable idle (call_message idle 1 3 hello) = false)
    by (vm_compute; reflexivity).
  assert (Hnext : metaCall first_call.1 2 3 hello = Returns (next_call.1, next_call.2)).
  { apply (returned_pair (metaCall first_call.1 2 3 hello) (idle, 0%nat)).
    vm_compute. reflexivity. }
  assert (Hsent' : transport_unavailable first_call.1 (call_message first_call.1 2 3 hello)
                   = false) by (vm_compute; reflexivity).
  assert (H1 : 0 ≤ 1 < 2 ^ 32) by lia.
  assert (H2 : 0 ≤ 2 < 2 ^ 32) by lia.
  assert (Hne : (1 : Z) ≠ 2) by lia.
  destruct (distinct_ids_coexist (rt := release) idle 1 3 hello first_call.1 first_call.2
              2 3 hello next_call.1 next_call.2 H1 H2 Hne Hcall Hsent Hnext Hsent')
    as (Hfirst & Hsecond & _).
  split; [exact Hcall|]. split; [exact Hnext|]. split; [exact Hfirst|]. exact Hsecond.
Defined.

(** The Reply 42 comes in between the insert and the send of the call 1. *)
Lemma reply_before_send_returns_finds_slot_witness :
  debug_check_passes idle 1 3 hello
  ∧ transport_unavailable idle (call_message idle 1 3 hello) = false
  ∧ ∃ w',
      interleave (idle, [Call_begin 1 3 hello; Dispatch_take (reply 1 answer)])
        [Advance 0; Advance 0; Advance 1; Advance 1; Advance 0]%nat
      = Returns (w', [Call_return (length (heap idle)); Dispatch_return])
      ∧ settled w' (length (heap idle)) = [(Dispatch, reply_outcome idle (reply 1 answer))]
      ∧ _promises (self w') !! to_int 1 = None.
Proof.
  assert (Hdbg : debug_check_passes idle 1 3 hello) by (eexists; reflexivity).
  assert (Hsent : transport_unavailable idle (call_message idle 1 3 hello) = false)
    by (vm_compute; reflexivity).
  split; [exact Hdbg|]. split; [exact Hsent|].
  exact (reply_before_send_returns_finds_slot (rt := release) idle 1 3 hello
           (reply 1 answer) Hdbg Hsent eq_refl eq_refl).
Defined.

(** A Reply for the id 5, which no call has drawn. *)
Lemma reply_for_unknown_id_dropped_witness :
  msg_type (reply 5 answer) = Type_Reply
  ∧ _promises (self idle) !! to_int (msg_id (reply 5 answer)) = None
  ∧ ∃ w',
      onMessagePending idle (reply 5 answer) = Returns w'
      ∧ _promises (self w') = _promises (self idle)
      ∧ heap w' = heap idle ++ [[]].
Proof.
  split; [reflexivity|]. split; [reflexivity|].
  destruct (reply_for_unknown_id_dropped (rt := release) idle (reply 5 answer)
              eq_refl eq_refl) as (w' & Hrun & Hreg & Hheap & _).
  exists w'. split; [exact Hrun|]. split; [exact Hreg|]. exact Hheap.
Defined.

(** The signal 9 is connected and disconnected on the proxy. *)
Lemma disconnect_unregisters_what_connect_registered_witness :
  _socket (self idle) = Some connected
  ∧ Z.shiftr (DynamicObject_connect (base (self idle)) 9 ()).1 16 = 9
  ∧ ∃ w1 w2,
      connect idle 2 9 () = Returns (w1, 589824)
      ∧ disconnect w1 3 589824 = Returns (w2, true)
      ∧ _promises (self w2) = _promises (self idle).
Proof.
  assert (Hevent : Z.shiftr (DynamicObject_connect (base (self idle)) 9 ()).1 16 = 9)
    by (vm_compute; reflexivity).
  assert (Hok : (DynamicObject_disconnect (DynamicObject_connect (base (self idle)) 9 ()).2
                   (DynamicObject_connect (base (self idle)) 9 ()).1).1 = true)
    by (vm_compute; reflexivity).
  split; [reflexivity|]. split; [exact Hevent|].
  destruct (disconnect_unregisters_what_connect_registered (rt := release) idle connected
              2 3 9 () eq_refl Hevent Hok)
    as (w1 & w2 & registered & unregistered & logs & logs' & Hconnect & Hdisconnect
        & _ & _ & _ & _ & _ & _ & _ & _ & _ & _ & Hreg & _).
  exists w1, w2. split; [exact Hconnect|]. split; [exact Hdisconnect|]. exact Hreg.
Defined.

End FurtherRuns.

Section DebugRuns.
Import Fixture.
Local Existing Instance debug.

(** The call of [ping::(s)] with a buffer of signature [s], in a build
    without [NDEBUG]. *)
Lemma tuple_layer_of_signatures_witness :
  Z.of_nat (String.length "s") + 2 < 2 ^ 64
  ∧ NDEBUG = false
  ∧ ∃ w' fut rest,
      metaCall debug_no_socket 1 3 hello = Returns (w', fut)
      ∧ trace w'
        = trace debug_no_socket
            ++ [qiLog Debug "remoteobject"
                  [LThis; LStr " metacall "; LNum 7; LStr " "; LNum 3; LStr " "; LNum 1]]
            ++ [EvLock] ++ rest.
Proof.
  assert (Hlen : Z.of_nat (String.length "s") + 2 < 2 ^ 64) by reflexivity.
  split; [exact Hlen|]. split; [reflexivity|].
  exact (proj1 (proj1 (tuple_layer_of_signatures (rt := debug) debug_no_socket 1 3 hello
                         {| signature := "ping::(s)"; sigreturn := "i" |}
                         (event 1 hello) "tick::(s)"%string "s"%string Hlen)
                  eq_refl eq_refl) eq_refl).
Defined.

End DebugRuns.

Section FurtherServerRuns.
Import Fixture.
Local Existing Instance bind_refused.

(** Two connections are accepted on a server with the delegate 1, and
    the queue is read three times. *)
Lemma accepted_connections_come_out_in_order_witness :
  Server.tsi serving = Some 1%nat
  ∧ Server.connection serving = []
  ∧ ∃ p',
      accept_all serving [5; 6] () = Returns p'
      ∧ (drain 3 p').2
        = [Some {| Server.fd := 5; Server.event_base := () |};
           Some {| Server.fd := 6; Server.event_base := () |};
           None].
Proof.
  split; [reflexivity|]. split; [reflexivity|].
  destruct (accepted_connections_come_out_in_order (pf := bind_refused)
              serving 1%nat [5; 6] () 1%nat eq_refl eq_refl) as (p' & Hrun & _ & Hdrain).
  exists p'. split; [exact Hrun|]. exact (f_equal snd Hdrain).
Defined.

End FurtherServerRuns.

Section ConversionRuns.
Import Fixture Conversion.
Local Existing Instance types.

(** The boxed [int] 7 converted to [double]. *)
Lemma convert_gives_target_type_witness :
  is_metavalue "double"%string = false
  ∧ well_typed boxed_seven
  ∧ ∃ type value,
      convert id boxed_seven "double"%string = Value (Plain type value)
      ∧ info type = info "double"%string.
Proof.
  assert (Hwell : well_typed boxed_seven) by (split; reflexivity).
  split; [reflexivity|]. split; [exact Hwell|].
  destruct (proj2 (convert_gives_target_type (ty := types) id boxed_seven "double"%string)
              eq_refl Hwell) as (type & value & Hconv & Hinfo & _).
  exists type, value. split; [exact Hconv|]. exact Hinfo.
Defined.

(** The boxed [int] 7 converted to [bool] goes through the value. *)
Lemma convert_through_metavalues_witness :
  is_metavalue "bool"%string = false
  ∧ well_typed boxed_seven
  ∧ convert id boxed_seven "bool"%string = Value (Plain "bool"%string 1).
Proof.
  assert (Hwell : well_typed boxed_seven) by (split; reflexivity).
  split; [reflexivity|]. split; [exact Hwell|].
  destruct (proj1 (convert_through_metavalues (ty := types) id boxed_seven "bool"%string
                     eq_refl) Hwell) as (type & value & Hin & Hconv).
  injection Hin as <- <-. exact Hconv.
Defined.

End ConversionRuns.
